(** * LotteryGenerator: a shallow embedding of [src/generators/LotteryGenerator.ts]

    The development follows the pipeline of the class: hex decoding of the
    beacon value, seed derivation, the ChaCha20-like generator closure, the
    Fisher-Yates sampler and the validator.  Numbers that the source keeps in
    [Uint32Array]/[Uint8Array] cells are integers of [Z] with the wrap-around
    of every store and every bitwise operator written out. *)

From Stdlib Require Import ZArith List Lia Bool String Ascii QArith Qround Qcanon.
From stdpp Require Import base tactics option list numbers sorting.
From stdpp Require Import pretty.

Local Open Scope Z_scope.

(** ** ECMAScript integer conversions and bitwise operators *)

(** [ToUint32]: the value modulo 2^32, in [0, 2^32). *)
Definition toUint32 (x : Z) : Z := x mod 2 ^ 32.

(** [ToInt32]: the value modulo 2^32, in [-2^31, 2^31). *)
Definition toInt32 (x : Z) : Z := (x + 2 ^ 31) mod 2 ^ 32 - 2 ^ 31.

(** [x << n]: both operands through [ToInt32]/[ToUint32], the count masked
    to five bits, the result an int32. *)
Definition js_shl (x n : Z) : Z :=
  toInt32 (Z.shiftl (toInt32 x) (Z.land (toUint32 n) 31)).

(** [x >>> n]: the left operand through [ToUint32], zero fill. *)
Definition js_ushr (x n : Z) : Z :=
  Z.shiftr (toUint32 x) (Z.land (toUint32 n) 31).

(** [x | y] and [x ^ y]: int32 operands, int32 result. *)
Definition js_or (x y : Z) : Z := Z.lor (toInt32 x) (toInt32 y).
Definition js_xor (x y : Z) : Z := Z.lxor (toInt32 x) (toInt32 y).

(** ** Typed arrays

    A [Uint32Array] is a list of words.  A store converts with [ToUint32];
    a store past the end is ignored (as stdpp's insert does).  A read past
    the end gives [undefined] in the source; every index the class uses on a
    [Uint32Array] is below 16, and the embedding reads 0 there. *)
Definition u32_get (arr : list Z) (i : nat) : Z := default 0 (arr !! i).
Definition u32_set (arr : list Z) (i : nat) (v : Z) : list Z :=
  <[i := toUint32 v]> arr.

(** A [Uint8Array] read inside a bitwise expression: [undefined] past the
    end, which [ToInt32] turns into 0. *)
Definition u8_get (arr : list Z) (i : nat) : Z := default 0 (arr !! i).

(** The invariant of a 16-word [Uint32Array]. *)
Definition word32 (x : Z) : Prop := 0 <= x < 2 ^ 32.
Definition words16 (arr : list Z) : Prop :=
  length arr = 16%nat /\ Forall word32 arr.
Definition is_byte (x : Z) : Prop := 0 <= x < 256.

(** ** quarterRound (lines 126-142)

    One definition per kind of statement of the body. *)

(** [state[x] = (state[x] + state[y]) >>> 0] *)
Definition stmt_add (x y : nat) (state : list Z) : list Z :=
  u32_set state x (toUint32 (u32_get state x + u32_get state y)).

(** [state[x] ^= state[y]] *)
Definition stmt_xor (x y : nat) (state : list Z) : list Z :=
  u32_set state x (js_xor (u32_get state x) (u32_get state y)).

(** [state[x] = ((state[x] << n) | (state[x] >>> m)) >>> 0] *)
Definition stmt_rot (x : nat) (n m : Z) (state : list Z) : list Z :=
  u32_set state x
    (toUint32 (js_or (js_shl (u32_get state x) n) (js_ushr (u32_get state x) m))).

Definition quarterRound (a b c d : nat) (state : list Z) : list Z :=
  let state := stmt_add a b state in
  let state := stmt_xor d a state in
  let state := stmt_rot d 16 16 state in
  let state := stmt_add c d state in
  let state := stmt_xor b c state in
  let state := stmt_rot b 12 20 state in
  let state := stmt_add a b state in
  let state := stmt_xor d a state in
  let state := stmt_rot d 8 24 state in
  let state := stmt_add c d state in
  let state := stmt_xor b c state in
  let state := stmt_rot b 7 25 state in
  state.

(** ** chachaBlock (lines 147-170) *)

(** The body of the [for (let i = 0; i < 10; i++)] loop. *)
Definition doubleRound (working : list Z) : list Z :=
  let working := quarterRound 0 4 8 12 working in
  let working := quarterRound 1 5 9 13 working in
  let working := quarterRound 2 6 10 14 working in
  let working := quarterRound 3 7 11 15 working in
  let working := quarterRound 0 5 10 15 working in
  let working := quarterRound 1 6 11 12 working in
  let working := quarterRound 2 7 8 13 working in
  let working := quarterRound 3 4 9 14 working in
  working.

(** [for (let i = 0; i < 16; i++) output[i] = (working[i] + input[i]) >>> 0] *)
Definition addInput (working input output : list Z) : list Z :=
  foldl (fun out i => u32_set out i (toUint32 (u32_get working i + u32_get input i)))
        output (seq 0 16).

(** [chachaBlock(input, output)] leaves [input] as it is ([working] is a
    copy) and fills [output]; the embedding returns the new [output]. *)
Definition chachaBlock (input output : list Z) : list Z :=
  let working := input in
  let working := Nat.iter 10 doubleRound working in
  addInput working input output.

(** ** createCSPRNG (lines 81-121) *)

(** The variables the returned closure captures. *)
Record Csprng : Type := MkCsprng {
  state : list Z;
  bufferIndex : nat;
  buffer : list Z
}.

(** [(seed[i*4] | (seed[i*4+1] << 8) | (seed[i*4+2] << 16) | (seed[i*4+3] << 24)) >>> 0] *)
Definition seedWord (seed : list Z) (i : nat) : Z :=
  toUint32
    (js_or (js_or (js_or (u8_get seed (i * 4))
                         (js_shl (u8_get seed (i * 4 + 1)) 8))
                  (js_shl (u8_get seed (i * 4 + 2)) 16))
           (js_shl (u8_get seed (i * 4 + 3)) 24)).

(** [for (let i = 0; i < 8 && i * 4 < seed.length; i++) state[i] = ...];
    [n] bounds the number of iterations, and 8 is enough. *)
Fixpoint seedLoop (n : nat) (seed : list Z) (i : nat) (st : list Z) : list Z :=
  match n with
  | O => st
  | S n' =>
      if (i <? 8)%nat && (i * 4 <? length seed)%nat
      then seedLoop n' seed (S i) (u32_set st i (seedWord seed i))
      else st
  end.

Definition createCSPRNG (seed : list Z) : Csprng :=
  let st := replicate 16 0 in
  let st := seedLoop 8 seed 0 st in
  let st := u32_set st 8 0x61707865 in
  let st := u32_set st 9 0x3320646e in
  let st := u32_set st 10 0x79622d32 in
  let st := u32_set st 11 0x6b206574 in
  let st := u32_set st 12 0 in
  let st := u32_set st 13 0 in
  let st := u32_set st 14 0 in
  let st := u32_set st 15 0 in
  {| state := st; bufferIndex := 16; buffer := replicate 16 0 |}.

(** The refill of the closure: the body of [if (bufferIndex >= 16)]. *)
Definition refill (g : Csprng) : Csprng :=
  let buf := chachaBlock (state g) (buffer g) in
  let st := u32_set (state g) 12 (toUint32 (u32_get (state g) 12 + 1)) in
  let st := if u32_get st 12 =? 0
            then u32_set st 13 (toUint32 (u32_get st 13 + 1))
            else st in
  {| state := st; bufferIndex := 0; buffer := buf |}.

(** One call of the closure.  The word read from the buffer is returned
    next to the number the closure returns, [value / 0x100000000]; the
    division by a power of two is exact in double precision, so the
    rational is the number the source computes. *)
Definition rngWord (g : Csprng) : Z * Csprng :=
  let g := if (16 <=? bufferIndex g)%nat then refill g else g in
  let value := u32_get (buffer g) (bufferIndex g) in
  (value, {| state := state g; bufferIndex := S (bufferIndex g); buffer := buffer g |}).

Definition rng (g : Csprng) : Q * Csprng :=
  let '(value, g') := rngWord g in (value # 4294967296, g').

(** ** Errors

    The class throws [Error] objects that differ by their message; one
    constructor per message. *)
Inductive Error : Type :=
| OddLengthHex                          (* 'Invalid hex string: odd length' *)
| InvalidHexCharacter                   (* 'Invalid hex character in beacon value' *)
| CannotGenerate (count min max : Z).   (* `Cannot generate ${count} unique numbers from range ${min}-${max}` *)

(** The outcome of a call that may throw, or of an awaited promise. *)
Inductive result (A : Type) : Type :=
| Ok (a : A)
| Err (e : Error).
Arguments Ok {A} a.
Arguments Err {A} e.


(** ** Strings

    A string is the list of its UTF-16 code units. *)
Definition codeUnits (s : string) : list Z :=
  map (fun a => Z.of_N (N_of_ascii a)) (list_ascii_of_string s).

(** The class [\s] of a regular expression, which is also the set
    [TrimString] removes: WhiteSpace and LineTerminator code points. *)
Definition isWhiteSpace (c : Z) : bool :=
  ((9 <=? c) && (c <=? 13))          (* TAB, LF, VT, FF, CR *)
  || (c =? 32) || (c =? 160) || (c =? 5760)
  || ((8192 <=? c) && (c <=? 8202))
  || (c =? 8232) || (c =? 8233) || (c =? 8239) || (c =? 8287)
  || (c =? 12288) || (c =? 65279).

(** The value of a radix-16 digit. *)
Definition hexDigit (c : Z) : option Z :=
  if (48 <=? c) && (c <=? 57) then Some (c - 48)
  else if (65 <=? c) && (c <=? 70) then Some (c - 55)
  else if (97 <=? c) && (c <=? 102) then Some (c - 87)
  else None.

Definition isHexDigit (c : Z) : bool :=
  match hexDigit c with Some _ => true | None => false end.

Fixpoint dropWhile (p : Z -> bool) (s : list Z) : list Z :=
  match s with
  | [] => []
  | c :: s' => if p c then dropWhile p s' else s
  end.

Fixpoint takeWhile (p : Z -> bool) (s : list Z) : list Z :=
  match s with
  | [] => []
  | c :: s' => if p c then c :: takeWhile p s' else []
  end.

(** [parseInt(s, 16)], [None] for NaN.  The steps of the language
    definition: trim leading white space, take a sign, strip one [0x] or
    [0X], keep the longest prefix of digits, NaN when that prefix is
    empty.  ([-0] is 0 here: [isNaN] and the typed-array store do not tell
    them apart.) *)
Definition parseInt16 (s : list Z) : option Z :=
  let s := dropWhile isWhiteSpace s in
  let sign := match s with
              | c :: _ => if c =? 45 then -1 else 1
              | [] => 1
              end in
  let s := match s with
           | c :: s' => if (c =? 43) || (c =? 45) then s' else s
           | [] => s
           end in
  let s := match s with
           | c :: x :: s' =>
               if (c =? 48) && ((x =? 120) || (x =? 88)) then s' else s
           | _ => s
           end in
  match takeWhile isHexDigit s with
  | [] => None
  | digits =>
      Some (sign * foldl (fun acc c => acc * 16 + default 0 (hexDigit c)) 0 digits)
  end.

(** ** hexToBytes (lines 175-192) *)

(** [hex.replace(/\s/g, '')] *)
Definition removeWhitespace (hex : list Z) : list Z :=
  List.filter (fun c => negb (isWhiteSpace c)) hex.

(** The loop [for (let i = 0; i < cleanHex.length; i += 2)], on the part of
    [cleanHex] from [i] on: [substr(i, 2)] is the next two code units (one
    when a single unit is left), and [bytes[i / 2] = byte] stores
    [byte mod 256] in the [Uint8Array]. *)
Definition decodeChunk (chunk : list Z) (later : result (list Z)) : result (list Z) :=
  match parseInt16 chunk with
  | None => Err InvalidHexCharacter
  | Some byte =>
      match later with
      | Ok bytes => Ok (byte mod 256 :: bytes)
      | Err e => Err e
      end
  end.

Fixpoint decodePairs (rest : list Z) : result (list Z) :=
  match rest with
  | [] => Ok []
  | [c1] => decodeChunk [c1] (Ok [])
  | c1 :: c2 :: rest' => decodeChunk [c1; c2] (decodePairs rest')
  end.

Definition hexToBytes (hex : list Z) : result (list Z) :=
  let cleanHex := removeWhitespace hex in
  if negb (Z.of_nat (length cleanHex) mod 2 =? 0)
  then Err OddLengthHex
  else decodePairs cleanHex.

(** ** deriveSeed (lines 33-50)

    The two calls into the platform are parameters: [hmacSha256 key message]
    for [crypto.subtle.importKey] followed by [crypto.subtle.sign], and
    [textEncode] for [new TextEncoder().encode].  Both are total functions
    here: a refusal by the platform (of an empty key, say) is outside the
    embedding.  [deriveSeed] is [async]: an exception of [hexToBytes]
    rejects the promise it returns. *)
Section Derivation.
Variable hmacSha256 : list Z -> list Z -> list Z.
Variable textEncode : list Z -> list Z.

Definition deriveSeed (beacon purpose : list Z) : result (list Z) :=
  match hexToBytes beacon with
  | Err e => Err e
  | Ok beaconBytes =>
      let purposeBytes := textEncode purpose in
      Ok (hmacSha256 beaconBytes purposeBytes)
  end.
End Derivation.

(** ** generateUniqueNumbers (lines 56-75) *)

(** [Array.from({ length: max - min + 1 }, (_, i) => i + min)]; a negative
    length counts as 0. *)
Definition makePool (min max : Z) : list Z :=
  (fun i => Z.of_nat i + min) <$> seq 0 (Z.to_nat (max - min + 1)).

(** [[pool[i], pool[j]] = [pool[j], pool[i]]]: the right-hand side is read
    first, then [pool[i]] and [pool[j]] are written in this order.  Inside
    the shuffle both indices are below [pool.length] (lemma
    [shuffle_index_in_range]); outside that range the source would read
    [undefined], which the embedding does not represent. *)
Definition swapCells (pool : list Z) (i j : nat) : list Z :=
  let rhs0 := default 0 (pool !! j) in
  let rhs1 := default 0 (pool !! i) in
  <[j := rhs1]> (<[i := rhs0]> pool).

(** [Math.floor(r * (i + 1))] for the number [r] the generator returned.
    With [r = value / 2^32] the product is exact in double precision as long
    as [i + 1 <= 2^21], and so is the quotient below. *)
Definition pickIndex (r : Q) (i : nat) : Z :=
  Qfloor (r * inject_Z (Z.of_nat i + 1)).

(** [pool.slice(0, count)]: a negative [count] counts from the end. *)
Definition slice0 (pool : list Z) (count : Z) : list Z :=
  let len := Z.of_nat (length pool) in
  let final := if count <? 0 then Z.max (len + count) 0 else Z.min count len in
  take (Z.to_nat final) pool.

(** [.sort((a, b) => a - b)]: the ascending arrangement.  The language
    leaves the algorithm open; the result for this comparator is the same
    for each, and stdpp's merge sort computes it. *)
Definition sortAscending (l : list Z) : list Z := merge_sort Z.le l.

Section Shuffle.
(** The shuffle for an arbitrary generator: a state and a call returning
    a number and the next state. *)
Context {G : Type}.
Variable draw : G -> Q * G.

(** What the loop has changed so far: the pool, the generator, and the
    number of calls of the generator. *)
Record Shuffled : Type := MkShuffled {
  pool : list Z;
  gen : G;
  draws : nat
}.

(** [for (let i = pool.length - 1; i > 0; i--)], from index [i] down. *)
Fixpoint shuffleFrom (i : nat) (s : Shuffled) : Shuffled :=
  match i with
  | O => s
  | S i' =>
      let '(r, g') := draw (gen s) in
      let j := pickIndex r i in
      shuffleFrom i' {| pool := swapCells (pool s) i (Z.to_nat j);
                        gen := g';
                        draws := S (draws s) |}
  end.

Definition shuffle (p : list Z) (g : G) : Shuffled :=
  shuffleFrom (Nat.pred (length p)) {| pool := p; gen := g; draws := 0 |}.
End Shuffle.
Arguments Shuffled G : clear implicits.
Arguments MkShuffled {G} _ _ _.
Arguments pool {G} _.
Arguments gen {G} _.
Arguments draws {G} _.

(** One run of [generateUniqueNumbers]: what the promise settles to, and the
    pool and generator at the end when they were created. *)
Record Run : Type := MkRun {
  outcome : result (list Z);
  shuffled : option (Shuffled Csprng)
}.

Definition generateUniqueNumbers
    (seedPromise : result (list Z)) (count min max : Z) : Run :=
  if max - min + 1 <? count
  then {| outcome := Err (CannotGenerate count min max); shuffled := None |}
  else
    match seedPromise with
    | Err e => {| outcome := Err e; shuffled := None |}
    | Ok seed =>
        let g := createCSPRNG seed in
        let p := makePool min max in
        let s := shuffle rng p g in
        {| outcome := Ok (sortAscending (slice0 (pool s) count));
           shuffled := Some s |}
    end.

(** ** generate649Numbers and generateLottoMaxNumbers (lines 7-27)

    Both return the promise of [generateUniqueNumbers] without awaiting it,
    so the [catch] blocks see no rejection and the promise settles as the
    inner one does. *)
Section Public.
Variable hmacSha256 : list Z -> list Z -> list Z.
Variable textEncode : list Z -> list Z.

Definition generate649Numbers (seed : list Z) : Run :=
  let derivedSeed := deriveSeed hmacSha256 textEncode seed (codeUnits "649") in
  generateUniqueNumbers derivedSeed 6 1 49.

Definition generateLottoMaxNumbers (seed : list Z) : Run :=
  let derivedSeed := deriveSeed hmacSha256 textEncode seed (codeUnits "max") in
  generateUniqueNumbers derivedSeed 7 1 50.
End Public.

(** ** validateNumbers (lines 197-217)

    The elements of [numbers] are arbitrary numbers: a finite one is a
    rational (every double is), next to NaN and the two infinities.  The two
    zeros are one value here; [Set], [<] and [Number.isInteger] do not tell
    them apart.  The count and the bounds are integers. *)
Inductive number : Type :=
| Finite (q : Qc)
| NaN
| PosInfinity
| NegInfinity.

#[global] Instance number_eq_dec : EqDecision number.
Proof. solve_decision. Defined.

Definition ofInt (z : Z) : number := Finite (Q2Qc (inject_Z z)).

(** [a < b] on numbers; [a > b] is [b < a]. *)
Definition num_lt (a b : number) : bool :=
  match a, b with
  | NaN, _ | _, NaN => false
  | Finite p, Finite q => negb (Qle_bool q p)
  | Finite _, PosInfinity => true
  | Finite _, NegInfinity => false
  | PosInfinity, _ => false
  | NegInfinity, NegInfinity => false
  | NegInfinity, _ => true
  end.

(** [Number.isInteger] *)
Definition isInteger (a : number) : bool :=
  match a with
  | Finite q => (Qden q =? 1)%positive
  | _ => false
  end.

(** [new Set(numbers).size]: the number of different values. *)
Definition setSize (numbers : list number) : nat := length (remove_dups numbers).

(** The [for (const num of numbers)] loop with its early [return false]. *)
Fixpoint rangeLoop (numbers : list number) (min max : Z) : bool :=
  match numbers with
  | [] => true
  | num :: rest =>
      if num_lt num (ofInt min) || num_lt (ofInt max) num || negb (isInteger num)
      then false
      else rangeLoop rest min max
  end.

Definition validateNumbers (numbers : list number) (expectedCount min max : Z) : bool :=
  if negb (Z.of_nat (length numbers) =? expectedCount) then false
  else
    let uniqueNumbers := setSize numbers in
    if negb (Z.of_nat uniqueNumbers =? expectedCount) then false
    else rangeLoop numbers min max.

(** * The specification's wording *)

(** ** Block generation as the specification words it

    A quarter-round is a function of four 32-bit words; a pass applies it
    to four groups of words of the working buffer. *)
Definition add32 (a b : Z) : Z := (a + b) mod 2 ^ 32.

(** [x <<<= n]: rotation of a 32-bit word to the left. *)
Definition rotl32 (x n : Z) : Z :=
  Z.lor (Z.shiftl x n mod 2 ^ 32) (Z.shiftr x (32 - n)).

Definition spec_quarter (w : Z * Z * Z * Z) : Z * Z * Z * Z :=
  let '(a, b, c, d) := w in
  let a := add32 a b in let d := Z.lxor d a in let d := rotl32 d 16 in
  let c := add32 c d in let b := Z.lxor b c in let b := rotl32 b 12 in
  let a := add32 a b in let d := Z.lxor d a in let d := rotl32 d 8 in
  let c := add32 c d in let b := Z.lxor b c in let b := rotl32 b 7 in
  (a, b, c, d).

Definition spec_group (a b c d : nat) (w : list Z) : list Z :=
  let '(a', b', c', d') :=
    spec_quarter (u32_get w a, u32_get w b, u32_get w c, u32_get w d) in
  <[d := d']> (<[c := c']> (<[b := b']> (<[a := a']> w))).

Definition spec_columns (w : list Z) : list Z :=
  spec_group 3 7 11 15 (spec_group 2 6 10 14 (spec_group 1 5 9 13 (spec_group 0 4 8 12 w))).

Definition spec_diagonals (w : list Z) : list Z :=
  spec_group 3 4 9 14 (spec_group 2 7 8 13 (spec_group 1 6 11 12 (spec_group 0 5 10 15 w))).

Definition spec_doubleRound (w : list Z) : list Z := spec_diagonals (spec_columns w).

Definition spec_block (st : list Z) : list Z :=
  zip_with add32 (Nat.iter 10 spec_doubleRound st) st.

(** ** The initial state as the specification words it *)



(** ** The shuffle as the specification words it *)

(** The numbers a generator returns in its first [n] calls, and its state
    after them. *)
Fixpoint drawStream {G : Type} (draw : G -> Q * G) (n : nat) (g : G) : list Q :=
  match n with
  | O => []
  | S n' => fst (draw g) :: drawStream draw n' (snd (draw g))
  end.

Fixpoint afterDraws {G : Type} (draw : G -> Q * G) (n : nat) (g : G) : G :=
  match n with
  | O => g
  | S n' => afterDraws draw n' (snd (draw g))
  end.

(** Exchange of the elements at two positions. *)
Definition spec_swap (l : list Z) (i j : nat) : list Z :=
  imap (fun k x => if decide (k = i) then default x (l !! j)
                   else if decide (k = j) then default x (l !! i)
                   else x) l.

(** Fisher-Yates over the drawn numbers [rs]: for [i] from the given index
    down to 1, [j = floor(r * (i + 1))] and positions [i] and [j] are
    exchanged. *)
Fixpoint spec_fisherYates (i : nat) (p : list Z) (rs : list Q) : list Z :=
  match i, rs with
  | S i', r :: rs' =>
      spec_fisherYates i' (spec_swap p i (Z.to_nat (Qfloor (r * inject_Z (Z.of_nat i + 1))))) rs'
  | _, _ => p
  end.

(** The pool [[min, min+1, ..., max]]. *)
Definition spec_pool (min max : Z) : list Z := seqZ min (max - min + 1).

(** ** Hex text as the specification words it *)

(** Well-formed hex text: an even number of characters of [0-9A-Fa-f]. *)
Definition wellFormedHex (s : list Z) : Prop :=
  Nat.Even (length s) /\ Forall (fun c => isHexDigit c = true) s.

(** The bytes of well-formed hex text, two digits per byte, high digit
    first. *)
Fixpoint spec_hexBytes (s : list Z) : list Z :=
  match s with
  | c1 :: c2 :: rest =>
      (16 * default 0 (hexDigit c1) + default 0 (hexDigit c2)) :: spec_hexBytes rest
  | _ => []
  end.

(** ** Auxiliary definitions of the proofs *)

(** The three kinds of statement of [quarterRound], as the write of the
    word the specification names. *)
Definition write_add (x y : nat) (st : list Z) : list Z :=
  <[x := add32 (u32_get st x) (u32_get st y)]> st.
Definition write_xor (x y : nat) (st : list Z) : list Z :=
  <[x := Z.lxor (u32_get st x) (u32_get st y)]> st.
Definition write_rot (x : nat) (n : Z) (st : list Z) : list Z :=
  <[x := rotl32 (u32_get st x) n]> st.

(** The twelve statements, each as the write of one word. *)
Definition quarterWrites (a b c d : nat) (st : list Z) : list Z :=
  let st := write_add a b st in
  let st := write_xor d a st in
  let st := write_rot d 16 st in
  let st := write_add c d st in
  let st := write_xor b c st in
  let st := write_rot b 12 st in
  let st := write_add a b st in
  let st := write_xor d a st in
  let st := write_rot d 8 st in
  let st := write_add c d st in
  let st := write_xor b c st in
  let st := write_rot b 7 st in
  st.

(** The eight word groups of a double round. *)
Definition wordGroups : list (nat * nat * nat * nat) :=
  [(0, 4, 8, 12); (1, 5, 9, 13); (2, 6, 10, 14); (3, 7, 11, 15);
   (0, 5, 10, 15); (1, 6, 11, 12); (2, 7, 8, 13); (3, 4, 9, 14)]%nat.

(** What one generator needs for its reads to be words: both arrays are
    16-word [Uint32Array]s. *)
Definition genOk (g : Csprng) : Prop := words16 (state g) /\ words16 (buffer g).

(** An integer within [[min, max]]. *)
Definition inRange (min max : Z) (a : number) : Prop :=
  exists z, a = ofInt z /\ min <= z <= max.

(** A seed of 32 zero bytes, for the examples. *)
Definition zero32 : list Z := replicate 32 0.

(** The text [de ad<TAB>be<LF>ef], and stand-ins for the two platform
    calls, for the examples. *)
Definition spacedHex : list Z :=
  codeUnits "de ad" ++ [9] ++ codeUnits "be" ++ [10] ++ codeUnits "ef".
Definition keyAsHash (key message : list Z) : list Z := key.
Definition sameBytes (text : list Z) : list Z := text.

(** * Definitions of the further properties *)

(** ** The generator as a counter-mode stream *)

(** The state in which the two counter words hold the number [q]: word 12
    its low 32 bits and word 13 the next 32. *)
Definition counterState (st0 : list Z) (q : Z) : list Z :=
  <[13%nat := (q / 2 ^ 32) mod 2 ^ 32]> (<[12%nat := q mod 2 ^ 32]> st0).

(** A seed cut or filled with zero bytes to 32 bytes. *)
Definition seed32 (seed : list Z) : list Z := take 32 (seed ++ replicate 32 0).


(** ** The texts that [hexToBytes] accepts *)

(** The pairs of code units that [parseInt(pair, 16)] reads as a number: a
    hex digit followed by anything, except [0x] and [0X]; or a sign
    followed by a hex digit. *)
Definition pairParses (c1 c2 : Z) : bool :=
  (isHexDigit c1 && negb ((c1 =? 48) && ((c2 =? 120) || (c2 =? 88))))
  || (((c1 =? 43) || (c1 =? 45)) && isHexDigit c2).

(** The byte stored for such a pair: both digits; or the first digit alone
    when the second code unit is no digit; or the signed digit, modulo
    256. *)
Definition pairByte (c1 c2 : Z) : Z :=
  let d1 := default 0 (hexDigit c1) in
  let d2 := default 0 (hexDigit c2) in
  if isHexDigit c1
  then (if isHexDigit c2 then 16 * d1 + d2 else d1)
  else (if c1 =? 45 then (- d2) mod 256 else d2).

Fixpoint allPairs (p : Z -> Z -> bool) (s : list Z) : bool :=
  match s with
  | c1 :: c2 :: rest => p c1 c2 && allPairs p rest
  | _ => true
  end.

Fixpoint pairBytes (s : list Z) : list Z :=
  match s with
  | c1 :: c2 :: rest => pairByte c1 c2 :: pairBytes rest
  | _ => []
  end.

(** ** BeaconService (services/BeaconService.ts) *)

(** A value as [response.json()] gives it, together with [undefined], which
    a property read can give.  The properties of an object are in the order
    of the JSON text. *)
#[warnings="-register-all"] Inductive jsvalue : Type :=
| JUndefined
| JNull
| JBool (b : bool)
| JNumber (n : number)
| JString (s : list Z)
| JArray (items : list jsvalue)
| JObject (props : list (list Z * jsvalue)).

(** [!v] is false on these. *)
Definition truthy (v : jsvalue) : bool :=
  match v with
  | JUndefined | JNull => false
  | JBool b => b
  | JNumber n => negb (bool_decide (n = ofInt 0 \/ n = NaN))
  | JString s => negb (bool_decide (s = []))
  | JArray _ | JObject _ => true
  end.

(** [typeof v === 'object'] and [typeof v === 'string']. *)
Definition isObjectType (v : jsvalue) : bool :=
  match v with
  | JNull | JArray _ | JObject _ => true
  | _ => false
  end.

Definition isStringType (v : jsvalue) : bool :=
  match v with
  | JString _ => true
  | _ => false
  end.

(** The binding of [key] that [JSON.parse] keeps: the last one. *)
Fixpoint lastBinding (props : list (list Z * jsvalue)) (key : list Z) : option jsvalue :=
  match props with
  | [] => None
  | (k, v) :: rest =>
      match lastBinding rest key with
      | Some v' => Some v'
      | None => if bool_decide (k = key) then Some v else None
      end
  end.

(** The read [v.key] for the three keys the class reads ([pulse],
    [outputValue], [timeStamp]): an object gives its binding, and an array
    or a primitive value, which has no such property, gives [undefined].
    (The class reads properties of values it has found truthy only, so the
    read of a property of [null] or [undefined] does not occur.) *)
Definition getProp (v : jsvalue) (key : list Z) : jsvalue :=
  match v with
  | JObject props => default JUndefined (lastBinding props key)
  | _ => JUndefined
  end.

(** The code units of a value that is a string. *)
Definition textOf (v : jsvalue) : list Z :=
  match v with
  | JString s => s
  | _ => []
  end.

(** The values of [errorType]. *)
Inductive ErrorType : Type := NetworkType | ApiType | GenerationType.

(** An [Error] object: its name, its message and the [errorType] property
    the classes add. *)
Record JsError : Type := MkJsError {
  errName : list Z;
  errMessage : list Z;
  errType : option ErrorType
}.

(** [new Error(message)] *)
Definition newError (message : list Z) : JsError :=
  {| errName := codeUnits "Error"; errMessage := message; errType := None |}.

(** [createError(message, type)] of [BeaconService]. *)
Definition createServiceError (message : list Z) (type : ErrorType) : JsError :=
  {| errName := codeUnits "Error"; errMessage := message; errType := Some type |}.

(** [/^[0-9A-Fa-f]+$/.test(s)] *)
Definition hexOnly (s : list Z) : bool :=
  negb (bool_decide (s = [])) && forallb isHexDigit s.

(** [validateBeaconResponse(data)]: [Some e] when it throws [e], [None]
    when it returns. *)
Definition validateBeaconResponse (data : jsvalue) : option JsError :=
  if negb (truthy data) || negb (isObjectType data)
  then Some (createServiceError (codeUnits "Invalid response format from NIST Beacon") ApiType)
  else
    let pulse := getProp data (codeUnits "pulse") in
    if negb (truthy pulse) || negb (isObjectType pulse)
    then Some (createServiceError (codeUnits "Missing pulse data in beacon response") ApiType)
    else
      let outputValue := getProp pulse (codeUnits "outputValue") in
      let timeStamp := getProp pulse (codeUnits "timeStamp") in
      if negb (truthy outputValue) || negb (isStringType outputValue)
      then Some (createServiceError
                   (codeUnits "Missing or invalid outputValue in beacon response") ApiType)
      else if negb (truthy timeStamp) || negb (isStringType timeStamp)
      then Some (createServiceError
                   (codeUnits "Missing or invalid timeStamp in beacon response") ApiType)
      else if negb (hexOnly (textOf outputValue))
      then Some (createServiceError (codeUnits "Invalid hex format in outputValue") ApiType)
      else if Z.of_nat (length (textOf outputValue)) <? 64
      then Some (createServiceError (codeUnits "Insufficient entropy in outputValue") ApiType)
      else None.

(** A thrown value: an [Error] object or something else. *)
Inductive Thrown : Type :=
| ThrownError (e : JsError)
| ThrownOther.

(** How a promise settles. *)
Inductive settled (A : Type) : Type :=
| Fulfilled (a : A)
| Rejected (t : Thrown).
Arguments Fulfilled {A} a.
Arguments Rejected {A} t.

(** What the class reads of a [Response]; [json] is how [response.json()]
    settles. *)
Record Response : Type := MkResponse {
  ok : bool;
  status : N;
  statusText : list Z;
  json : settled jsvalue
}.

(** [s.startsWith(p)] and [s.includes(sub)] *)
Fixpoint startsWith (s p : list Z) : bool :=
  match p, s with
  | [], _ => true
  | _ :: _, [] => false
  | c :: p', d :: s' => (c =? d) && startsWith s' p'
  end.

Fixpoint includes (s sub : list Z) : bool :=
  startsWith s sub
  || match s with
     | [] => false
     | _ :: s' => includes s' sub
     end.

(** The [try] block of [fetchLatestBeacon], given how [fetch] settled (a
    rejection with an [AbortError] when the timer aborted it). *)
Definition fetchAttempt (fetched : settled Response) : settled jsvalue :=
  match fetched with
  | Rejected t => Rejected t
  | Fulfilled response =>
      if negb (ok response)
      then Rejected (ThrownError (newError
             (codeUnits "HTTP " ++ codeUnits (pretty (status response))
              ++ codeUnits ": " ++ statusText response)))
      else
        match json response with
        | Rejected t => Rejected t
        | Fulfilled data =>
            match validateBeaconResponse data with
            | Some e => Rejected (ThrownError e)
            | None => Fulfilled data
            end
        end
  end.

(** [fetchLatestBeacon()]: the [try] block and the [catch] block. *)
Definition fetchLatestBeacon (fetched : settled Response) : settled jsvalue :=
  match fetchAttempt fetched with
  | Fulfilled data => Fulfilled data
  | Rejected (ThrownError error) =>
      if bool_decide (errName error = codeUnits "AbortError")
      then Rejected (ThrownError (createServiceError
             (codeUnits "Request timeout - NIST Beacon service is not responding")
             NetworkType))
      else if includes (errMessage error) (codeUnits "Failed to fetch")
      then Rejected (ThrownError (createServiceError
             (codeUnits "Network error - Unable to connect to NIST Beacon service")
             NetworkType))
      else Rejected (ThrownError (createServiceError
             (codeUnits "API Error: " ++ errMessage error) ApiType))
  | Rejected ThrownOther =>
      Rejected (ThrownError (createServiceError
        (codeUnits "Unknown error occurred while fetching beacon data") ApiType))
  end.

(** ** LotteryApp (main.ts) *)

(** The message of an error of [LotteryGenerator].  (A number in a template
    is in decimal as long as it is below 10^21.) *)
Definition errorMessage (e : Error) : list Z :=
  match e with
  | OddLengthHex => codeUnits "Invalid hex string: odd length"
  | InvalidHexCharacter => codeUnits "Invalid hex character in beacon value"
  | CannotGenerate count min max =>
      codeUnits "Cannot generate " ++ codeUnits (pretty count)
      ++ codeUnits " unique numbers from range " ++ codeUnits (pretty min)
      ++ codeUnits "-" ++ codeUnits (pretty max)
  end.

Record LotteryNumbers : Type := MkLotteryNumbers {
  numbers649 : list Z;
  numbersMax : list Z;
  timestamp : list Z;
  outputValue : list Z
}.

(** What [generateNumbers] leaves on the page: the results handed to
    [displayResults], or the text handed to [showError].  [OutsideModel]
    stands for a type error of the language, at a read this embedding does
    not follow. *)
Inductive Screen : Type :=
| ShowsResults (n : LotteryNumbers)
| ShowsError (text : list Z)
| OutsideModel.

(** [handleError(error)] *)
Definition handleError (error : Thrown) : Screen :=
  match error with
  | ThrownError e =>
      match errType e with
      | Some NetworkType => ShowsError (codeUnits "Network Error: " ++ errMessage e)
      | Some ApiType => ShowsError (codeUnits "API Error: " ++ errMessage e)
      | Some GenerationType => ShowsError (codeUnits "Generation Error: " ++ errMessage e)
      | None => ShowsError (errMessage e)
      end
  | ThrownOther => ShowsError (codeUnits "An unexpected error occurred")
  end.

Section App.
Variable hmacSha256 : list Z -> list Z -> list Z.
Variable textEncode : list Z -> list Z.

(** [generateNumbers()], given how [fetch] settled. *)
Definition generateNumbers (fetched : settled Response) : Screen :=
  match fetchLatestBeacon fetched with
  | Rejected t => handleError t
  | Fulfilled beaconData =>
      let pulse := getProp beaconData (codeUnits "pulse") in
      match getProp pulse (codeUnits "outputValue"), getProp pulse (codeUnits "timeStamp") with
      | JString value, JString time =>
          match outcome (generate649Numbers hmacSha256 textEncode value) with
          | Err e => handleError (ThrownError (newError (errorMessage e)))
          | Ok n649 =>
              match outcome (generateLottoMaxNumbers hmacSha256 textEncode value) with
              | Err e => handleError (ThrownError (newError (errorMessage e)))
              | Ok nMax =>
                  if negb (validateNumbers (ofInt <$> n649) 6 1 49)
                  then handleError (ThrownError (newError
                         (codeUnits "Generated 6/49 numbers failed validation")))
                  else if negb (validateNumbers (ofInt <$> nMax) 7 1 50)
                  then handleError (ThrownError (newError
                         (codeUnits "Generated Lotto Max numbers failed validation")))
                  else ShowsResults {| numbers649 := n649; numbersMax := nMax;
                                       timestamp := time; outputValue := value |}
              end
          end
      | _, _ => OutsideModel
      end
  end.
End App.

(** A response body with the two properties the classes read, and a
    [Response] that carries it, for the examples. *)
Definition beaconWith (value time : list Z) : jsvalue :=
  JObject [(codeUnits "pulse",
            JObject [(codeUnits "outputValue", JString value);
                     (codeUnits "timeStamp", JString time)])].

Definition okResponse (data : jsvalue) : Response :=
  {| ok := true; status := 200; statusText := codeUnits "OK"; json := Fulfilled data |}.

(** The texts of [showError] after a failed fetch. *)
Definition timeoutText : list Z :=
  codeUnits "Network Error: Request timeout - NIST Beacon service is not responding".
Definition unreachableText : list Z :=
  codeUnits "Network Error: Network error - Unable to connect to NIST Beacon service".
Definition unknownText : list Z :=
  codeUnits "API Error: Unknown error occurred while fetching beacon data".

(** The errors that leave [fetchLatestBeacon]. *)
Inductive serviceFailure : Thrown -> Prop :=
| failTimeout :
    serviceFailure (ThrownError (createServiceError
      (codeUnits "Request timeout - NIST Beacon service is not responding") NetworkType))
| failNetwork :
    serviceFailure (ThrownError (createServiceError
      (codeUnits "Network error - Unable to connect to NIST Beacon service") NetworkType))
| failApi (message : list Z) :
    serviceFailure (ThrownError (createServiceError
      (codeUnits "API Error: " ++ message) ApiType))
| failUnknown :
    serviceFailure (ThrownError (createServiceError
      (codeUnits "Unknown error occurred while fetching beacon data") ApiType)).

(** * Words *)

Lemma toUint32_range (x : Z) : word32 (toUint32 x).
Proof. unfold word32, toUint32. apply Z.mod_pos_bound. lia. Qed.

Lemma toUint32_small (x : Z) : word32 x -> toUint32 x = x.
Proof. unfold word32, toUint32. intros H. apply Z.mod_small. exact H. Qed.

Lemma toUint32_idem (x : Z) : toUint32 (toUint32 x) = toUint32 x.
Proof. apply toUint32_small, toUint32_range. Qed.

Lemma toUint32_toInt32 (x : Z) : toUint32 (toInt32 x) = toUint32 x.
Proof.
  unfold toUint32, toInt32.
  change (2 ^ 31) with 2147483648. change (2 ^ 32) with 4294967296.
  pose proof (Z.div_mod (x + 2147483648) 4294967296 ltac:(lia)) as H.
  replace ((x + 2147483648) mod 4294967296 - 2147483648)
    with (x + (- ((x + 2147483648) / 4294967296)) * 4294967296) by lia.
  apply Z.mod_add. lia.
Qed.

Lemma toInt32_range (x : Z) : - 2 ^ 31 <= toInt32 x < 2 ^ 31.
Proof.
  unfold toInt32.
  pose proof (Z.mod_pos_bound (x + 2 ^ 31) (2 ^ 32)). lia.
Qed.

(** The low 32 bits survive both conversions. *)
Lemma testbit_toUint32 (x i : Z) :
  Z.testbit (toUint32 x) i = (i <? 32) && Z.testbit x i.
Proof. unfold toUint32. apply Z.testbit_mod_pow2. lia. Qed.

Lemma testbit_toInt32 (x i : Z) :
  0 <= i < 32 -> Z.testbit (toInt32 x) i = Z.testbit x i.
Proof.
  intros Hi.
  assert (H : Z.testbit (toUint32 (toInt32 x)) i = Z.testbit (toUint32 x) i)
    by (rewrite toUint32_toInt32; reflexivity).
  rewrite !testbit_toUint32 in H.
  destruct (Z.ltb_spec i 32); [exact H | lia].
Qed.

Lemma testbit_word32_high (x i : Z) : word32 x -> 32 <= i -> Z.testbit x i = false.
Proof.
  intros Hx Hi. rewrite <- (toUint32_small x Hx), testbit_toUint32.
  destruct (Z.ltb_spec i 32); [lia | reflexivity].
Qed.

Lemma shiftCount (n : Z) : 0 <= n < 32 -> Z.land (toUint32 n) 31 = n.
Proof.
  intros Hn. rewrite toUint32_small by (unfold word32; lia).
  change 31 with (Z.ones 5). rewrite Z.land_ones by lia.
  apply Z.mod_small. lia.
Qed.

Lemma add32_range (a b : Z) : word32 (add32 a b).
Proof. apply toUint32_range. Qed.

Lemma lxor_range (a b : Z) : word32 a -> word32 b -> word32 (Z.lxor a b).
Proof.
  intros Ha Hb.
  assert (H : toUint32 (Z.lxor a b) = Z.lxor a b).
  { apply Z.bits_inj'. intros i Hi.
    rewrite testbit_toUint32, Z.lxor_spec.
    destruct (Z.ltb_spec i 32); [reflexivity |].
    rewrite !testbit_word32_high by assumption. reflexivity. }
  rewrite <- H. apply toUint32_range.
Qed.

Lemma rotl32_range (x n : Z) : word32 x -> 0 < n < 32 -> word32 (rotl32 x n).
Proof.
  intros Hx Hn.
  assert (H : toUint32 (rotl32 x n) = rotl32 x n).
  { apply Z.bits_inj'. intros i Hi. unfold rotl32.
    rewrite testbit_toUint32, Z.lor_spec.
    destruct (Z.ltb_spec i 32); [reflexivity |].
    fold (toUint32 (Z.shiftl x n)).
    rewrite testbit_toUint32, Z.shiftr_spec by lia.
    destruct (Z.ltb_spec i 32); [lia |]. cbn [andb orb].
    rewrite (testbit_word32_high x) by (assumption || lia). reflexivity. }
  rewrite <- H. apply toUint32_range.
Qed.

(** A rotation indeed: bit [i] of the result is bit [i - n] of the word,
    the index taken modulo 32. *)
Lemma rotl32_testbit (x n i : Z) :
  word32 x -> 0 < n < 32 -> 0 <= i < 32 ->
  Z.testbit (rotl32 x n) i = Z.testbit x ((i - n) mod 32).
Proof.
  intros Hx Hn Hi. unfold rotl32.
  fold (toUint32 (Z.shiftl x n)).
  rewrite Z.lor_spec, testbit_toUint32, Z.shiftl_spec, Z.shiftr_spec by lia.
  destruct (Z.ltb_spec i 32); [| lia]. cbn [andb].
  destruct (Z_lt_le_dec i n) as [Hlt | Hge].
  - rewrite (Z.testbit_neg_r x (i - n)) by lia. cbn [orb].
    f_equal. replace (i - n) with (i + (32 - n) + (-1) * 32) by lia.
    rewrite Z.mod_add by lia. rewrite Z.mod_small by lia. reflexivity.
  - rewrite (testbit_word32_high x (i + (32 - n))) by (assumption || lia).
    rewrite orb_false_r. rewrite Z.mod_small by lia. reflexivity.
Qed.

(** The source's [^] on two words of a [Uint32Array]. *)
Lemma js_xor_word (a b : Z) :
  word32 a -> word32 b -> toUint32 (js_xor a b) = Z.lxor a b.
Proof.
  intros Ha Hb. apply Z.bits_inj'. intros i Hi. unfold js_xor.
  rewrite testbit_toUint32, !Z.lxor_spec.
  destruct (Z.ltb_spec i 32).
  - rewrite !testbit_toInt32 by lia. reflexivity.
  - cbn [andb].
    rewrite (testbit_word32_high a), (testbit_word32_high b) by assumption.
    reflexivity.
Qed.

(** The source's shift-or-shift expression is the rotation. *)
Lemma js_rot_word (x n : Z) :
  word32 x -> 0 < n < 32 ->
  toUint32 (js_or (js_shl x n) (js_ushr x (32 - n))) = rotl32 x n.
Proof.
  intros Hx Hn. apply Z.bits_inj'. intros i Hi.
  unfold js_or, js_shl, js_ushr, rotl32.
  rewrite !shiftCount by lia.
  fold (toUint32 (Z.shiftl x n)).
  rewrite testbit_toUint32, !Z.lor_spec, testbit_toUint32.
  destruct (Z.ltb_spec i 32); cbn [andb].
  - rewrite !testbit_toInt32 by lia.
    rewrite !Z.shiftl_spec, !Z.shiftr_spec by lia.
    rewrite (toUint32_small x Hx).
    destruct (Z_lt_le_dec i n) as [Hlt | Hge].
    + rewrite !(Z.testbit_neg_r _ (i - n)) by lia. reflexivity.
    + rewrite testbit_toInt32 by lia. reflexivity.
  - rewrite Z.shiftr_spec by lia.
    rewrite (testbit_word32_high x) by (assumption || lia). reflexivity.
Qed.

(** * The block function *)

Lemma u32_get_range (st : list Z) (i : nat) : Forall word32 st -> word32 (u32_get st i).
Proof.
  intros H. unfold u32_get. destruct (st !! i) as [x |] eqn:E; cbn.
  - eapply Forall_lookup_1; eassumption.
  - unfold word32. lia.
Qed.

Lemma u32_set_words (st : list Z) (i : nat) (v : Z) :
  Forall word32 st -> Forall word32 (u32_set st i v).
Proof. intros H. apply Forall_insert; [exact H | apply toUint32_range]. Qed.

Lemma u32_set_length (st : list Z) (i : nat) (v : Z) :
  length (u32_set st i v) = length st.
Proof. apply length_insert. Qed.

(** Each statement of [quarterRound] writes the word the specification
    names. *)
Lemma stmt_add_spec (x y : nat) (st : list Z) : stmt_add x y st = write_add x y st.
Proof. unfold stmt_add, write_add, u32_set. rewrite toUint32_idem. reflexivity. Qed.

Lemma stmt_xor_spec (x y : nat) (st : list Z) :
  Forall word32 st -> stmt_xor x y st = write_xor x y st.
Proof.
  intros H. unfold stmt_xor, write_xor, u32_set.
  rewrite js_xor_word by (apply u32_get_range; exact H). reflexivity.
Qed.

Lemma stmt_rot_spec (x : nat) (n m : Z) (st : list Z) :
  (0 <? n) && (n <? 32) && (m =? 32 - n) = true ->
  Forall word32 st ->
  stmt_rot x n m st = write_rot x n st.
Proof.
  intros Hn H. apply andb_prop in Hn as [Hn ->%Z.eqb_eq].
  apply andb_prop in Hn as [H0%Z.ltb_lt H32%Z.ltb_lt].
  assert (Hn : 0 < n < 32) by lia.
  unfold stmt_rot, write_rot, u32_set.
  rewrite toUint32_idem, js_rot_word
    by first [exact Hn | apply u32_get_range; exact H].
  reflexivity.
Qed.

Lemma write_add_words (x y : nat) (st : list Z) :
  Forall word32 st -> Forall word32 (write_add x y st).
Proof. intros H. apply Forall_insert; [exact H | apply add32_range]. Qed.

Lemma write_xor_words (x y : nat) (st : list Z) :
  Forall word32 st -> Forall word32 (write_xor x y st).
Proof.
  intros H. apply Forall_insert; [exact H |].
  apply lxor_range; apply u32_get_range; exact H.
Qed.

Lemma write_rot_words (x : nat) (n : Z) (st : list Z) :
  Forall word32 st -> 0 < n < 32 -> Forall word32 (write_rot x n st).
Proof.
  intros H Hn. apply Forall_insert; [exact H |].
  apply rotl32_range; [apply u32_get_range; exact H | exact Hn].
Qed.

Lemma stmt_xor_words (x y : nat) (st : list Z) :
  Forall word32 st -> Forall word32 (stmt_xor x y st).
Proof. apply u32_set_words. Qed.

Lemma stmt_rot_words (x : nat) (n m : Z) (st : list Z) :
  Forall word32 st -> Forall word32 (stmt_rot x n m st).
Proof. apply u32_set_words. Qed.

Create HintDb words discriminated.
#[local] Hint Resolve stmt_xor_words stmt_rot_words : words.
#[local] Hint Resolve write_add_words write_xor_words write_rot_words : words.
#[local] Hint Extern 1 (_ < _ < _) => lia : words.

Lemma quarterRound_writes (a b c d : nat) (st : list Z) :
  Forall word32 st -> quarterRound a b c d st = quarterWrites a b c d st.
Proof.
  intros H. unfold quarterRound, quarterWrites. cbv zeta.
  rewrite !stmt_add_spec.
  rewrite !stmt_xor_spec by auto 14 with words.
  rewrite !stmt_rot_spec by first [reflexivity | auto 14 with words].
  reflexivity.
Qed.

Lemma quarterWrites_words (a b c d : nat) (st : list Z) :
  Forall word32 st -> Forall word32 (quarterWrites a b c d st).
Proof. intros H. unfold quarterWrites. cbv zeta. auto 14 with words. Qed.

Lemma write_add_length (x y : nat) (st : list Z) :
  length (write_add x y st) = length st.
Proof. apply length_insert. Qed.

Lemma write_xor_length (x y : nat) (st : list Z) :
  length (write_xor x y st) = length st.
Proof. apply length_insert. Qed.

Lemma write_rot_length (x : nat) (n : Z) (st : list Z) :
  length (write_rot x n st) = length st.
Proof. apply length_insert. Qed.

Lemma quarterWrites_length (a b c d : nat) (st : list Z) :
  length (quarterWrites a b c d st) = length st.
Proof.
  unfold quarterWrites. cbv zeta.
  rewrite ?write_add_length, ?write_xor_length, ?write_rot_length.
  repeat first [rewrite write_add_length | rewrite write_xor_length
               | rewrite write_rot_length].
  reflexivity.
Qed.

(** A list of 16 elements, element by element. *)
Ltac explode16 l H :=
  let rec go l :=
    lazymatch type of H with
    | length l = O => destruct l; [clear H | discriminate H]
    | length l = S _ =>
        let x := fresh "x" in
        destruct l as [| x l]; [discriminate H |];
        cbn [length] in H; apply Nat.succ_inj in H; go l
    end in
  go l.

(** On each group, the twelve writes leave the buffer that the
    specification's quarter-round leaves on the four words. *)
Lemma quarterWrites_group (a b c d : nat) (st : list Z) :
  (a, b, c, d) ∈ wordGroups -> length st = 16%nat ->
  quarterWrites a b c d st = spec_group a b c d st.
Proof.
  intros Hin Hlen. explode16 st Hlen.
  unfold wordGroups in Hin.
  repeat (apply elem_of_cons in Hin as [Hin | Hin];
          [injection Hin as -> -> -> ->; reflexivity |]).
  apply elem_of_nil in Hin. destruct Hin.
Qed.

Lemma spec_group_words (a b c d : nat) (st : list Z) :
  (a, b, c, d) ∈ wordGroups -> words16 st -> words16 (spec_group a b c d st).
Proof.
  intros Hin [Hlen Hw].
  rewrite <- (quarterWrites_group a b c d st Hin Hlen).
  split.
  - rewrite quarterWrites_length. exact Hlen.
  - apply quarterWrites_words. exact Hw.
Qed.

Lemma quarterRound_group (a b c d : nat) (st : list Z) :
  (a, b, c, d) ∈ wordGroups -> words16 st ->
  quarterRound a b c d st = spec_group a b c d st.
Proof.
  intros Hin [Hlen Hw].
  rewrite quarterRound_writes by exact Hw.
  apply quarterWrites_group; assumption.
Qed.

Ltac in_groups := unfold wordGroups; solve [repeat constructor].

Lemma spec_columns_words (st : list Z) : words16 st -> words16 (spec_columns st).
Proof.
  intros H. unfold spec_columns.
  apply (spec_group_words 3 7 11 15); [in_groups |].
  apply (spec_group_words 2 6 10 14); [in_groups |].
  apply (spec_group_words 1 5 9 13); [in_groups |].
  apply (spec_group_words 0 4 8 12); [in_groups |].
  exact H.
Qed.

Lemma spec_diagonals_words (st : list Z) : words16 st -> words16 (spec_diagonals st).
Proof.
  intros H. unfold spec_diagonals.
  apply (spec_group_words 3 4 9 14); [in_groups |].
  apply (spec_group_words 2 7 8 13); [in_groups |].
  apply (spec_group_words 1 6 11 12); [in_groups |].
  apply (spec_group_words 0 5 10 15); [in_groups |].
  exact H.
Qed.

Lemma spec_doubleRound_words (st : list Z) :
  words16 st -> words16 (spec_doubleRound st).
Proof.
  intros H. unfold spec_doubleRound.
  apply spec_diagonals_words, spec_columns_words, H.
Qed.

Lemma columns_spec (st : list Z) :
  words16 st ->
  quarterRound 3 7 11 15 (quarterRound 2 6 10 14
    (quarterRound 1 5 9 13 (quarterRound 0 4 8 12 st))) = spec_columns st.
Proof.
  intros H. unfold spec_columns.
  assert (H1 := spec_group_words 0 4 8 12 st ltac:(in_groups) H).
  assert (H2 := spec_group_words 1 5 9 13 _ ltac:(in_groups) H1).
  assert (H3 := spec_group_words 2 6 10 14 _ ltac:(in_groups) H2).
  rewrite (quarterRound_group 0 4 8 12 st) by first [exact H | in_groups].
  rewrite (quarterRound_group 1 5 9 13) by first [exact H1 | in_groups].
  rewrite (quarterRound_group 2 6 10 14) by first [exact H2 | in_groups].
  rewrite (quarterRound_group 3 7 11 15) by first [exact H3 | in_groups].
  reflexivity.
Qed.

Lemma diagonals_spec (st : list Z) :
  words16 st ->
  quarterRound 3 4 9 14 (quarterRound 2 7 8 13
    (quarterRound 1 6 11 12 (quarterRound 0 5 10 15 st))) = spec_diagonals st.
Proof.
  intros H. unfold spec_diagonals.
  assert (H1 := spec_group_words 0 5 10 15 st ltac:(in_groups) H).
  assert (H2 := spec_group_words 1 6 11 12 _ ltac:(in_groups) H1).
  assert (H3 := spec_group_words 2 7 8 13 _ ltac:(in_groups) H2).
  rewrite (quarterRound_group 0 5 10 15 st) by first [exact H | in_groups].
  rewrite (quarterRound_group 1 6 11 12) by first [exact H1 | in_groups].
  rewrite (quarterRound_group 2 7 8 13) by first [exact H2 | in_groups].
  rewrite (quarterRound_group 3 4 9 14) by first [exact H3 | in_groups].
  reflexivity.
Qed.

Lemma doubleRound_spec (st : list Z) :
  words16 st -> doubleRound st = spec_doubleRound st.
Proof.
  intros H. unfold doubleRound, spec_doubleRound. cbv zeta.
  rewrite (columns_spec st H).
  apply diagonals_spec, spec_columns_words, H.
Qed.

Lemma rounds_spec (n : nat) (st : list Z) :
  words16 st ->
  Nat.iter n doubleRound st = Nat.iter n spec_doubleRound st
  /\ words16 (Nat.iter n spec_doubleRound st).
Proof.
  intros H. induction n as [| n [IHeq IHw]].
  - split; [reflexivity | exact H].
  - rewrite !Nat.iter_succ, IHeq. split.
    + apply doubleRound_spec. exact IHw.
    + apply spec_doubleRound_words. exact IHw.
Qed.

Lemma addInput_spec (working input output : list Z) :
  length working = 16%nat -> length input = 16%nat -> length output = 16%nat ->
  addInput working input output = zip_with add32 working input.
Proof.
  intros Hw Hi Ho.
  explode16 working Hw. explode16 input Hi. explode16 output Ho.
  unfold addInput, u32_set. cbn [seq foldl].
  cbn [u32_get lookup list_lookup default insert list_insert zip_with].
  rewrite !toUint32_idem. reflexivity.
Qed.

Lemma chachaBlock_spec (input output : list Z) :
  words16 input -> length output = 16%nat ->
  chachaBlock input output = spec_block input.
Proof.
  intros Hin Hout. unfold chachaBlock, spec_block. cbv zeta.
  destruct (rounds_spec 10 input Hin) as [Heq [Hlen _]].
  rewrite Heq. apply addInput_spec; [exact Hlen | apply Hin | exact Hout].
Qed.

Lemma zip_add32_words (l k : list Z) : Forall word32 (zip_with add32 l k).
Proof.
  revert k. induction l as [| x l IH]; intros [| y k]; cbn; constructor.
  - apply add32_range.
  - apply IH.
Qed.

Lemma spec_block_words (st : list Z) : words16 st -> words16 (spec_block st).
Proof.
  intros Hst. destruct (rounds_spec 10 st Hst) as [_ [Hlen _]].
  unfold spec_block. split.
  - rewrite length_zip_with. destruct Hst as [-> _]. rewrite Hlen. reflexivity.
  - apply zip_add32_words.
Qed.

(** * The generator *)






Lemma u32_set_words16 (st : list Z) (i : nat) (v : Z) :
  words16 st -> words16 (u32_set st i v).
Proof.
  intros [Hl Hw]. split.
  - rewrite u32_set_length. exact Hl.
  - apply u32_set_words. exact Hw.
Qed.

Lemma zeros_words16 : words16 (replicate 16 0).
Proof.
  split; [reflexivity |].
  apply Forall_replicate. unfold word32. lia.
Qed.

Lemma seedLoop_words16 (n : nat) (seed : list Z) (i : nat) (st : list Z) :
  words16 st -> words16 (seedLoop n seed i st).
Proof.
  revert i st. induction n as [| n IH]; intros i st H; cbn [seedLoop].
  - exact H.
  - destruct ((i <? 8)%nat && (i * 4 <? length seed)%nat).
    + apply IH, u32_set_words16, H.
    + exact H.
Qed.

Lemma createCSPRNG_ok (seed : list Z) : genOk (createCSPRNG seed).
Proof.
  unfold createCSPRNG, genOk. cbv zeta. cbn [state buffer]. split.
  - repeat apply u32_set_words16. apply seedLoop_words16, zeros_words16.
  - apply zeros_words16.
Qed.



(** The refill writes the counter words and nothing else. *)
Lemma refill_state (g : Csprng) :
  length (state g) = 16%nat ->
  let c := toUint32 (u32_get (state g) 12 + 1) in
  state (refill g) =
  if c =? 0
  then <[13%nat := toUint32 (u32_get (state g) 13 + 1)]> (<[12%nat := c]> (state g))
  else <[12%nat := c]> (state g).
Proof.
  intros Hlen. destruct g as [st idx buf]. cbn [state] in *.
  explode16 st Hlen. unfold refill. cbn [state buffer].
  unfold u32_set, u32_get.
  cbn [lookup list_lookup insert list_insert default].
  rewrite !toUint32_idem. reflexivity.
Qed.

Lemma refill_ok (g : Csprng) : genOk g -> genOk (refill g).
Proof.
  intros [Hs Hb]. unfold refill, genOk. cbv zeta. cbn [state buffer]. split.
  - destruct (_ =? 0); repeat apply u32_set_words16; exact Hs.
  - rewrite chachaBlock_spec by (exact Hs || apply Hb).
    apply spec_block_words, Hs.
Qed.

Lemma rngWord_ok (g : Csprng) : genOk g -> genOk (snd (rngWord g)).
Proof.
  intros H. unfold rngWord. cbv zeta. cbn [snd].
  destruct (16 <=? bufferIndex g)%nat.
  - apply (refill_ok g H).
  - exact H.
Qed.

Lemma rngWord_word (g : Csprng) : genOk g -> word32 (fst (rngWord g)).
Proof.
  intros H. unfold rngWord. cbv zeta. cbn [fst].
  apply u32_get_range.
  destruct (16 <=? bufferIndex g)%nat.
  - apply (refill_ok g H).
  - apply H.
Qed.

Lemma rng_fst (g : Csprng) : fst (rng g) = (fst (rngWord g) # 4294967296)%Q.
Proof. unfold rng. destruct (rngWord g). reflexivity. Qed.

Lemma rng_snd (g : Csprng) : snd (rng g) = snd (rngWord g).
Proof. unfold rng. destruct (rngWord g). reflexivity. Qed.

Lemma rng_ok (g : Csprng) : genOk g -> genOk (snd (rng g)).
Proof. rewrite rng_snd. apply rngWord_ok. Qed.

(** The number the closure returns lies in [0, 1). *)
Lemma rng_unit (g : Csprng) : genOk g -> (0 <= fst (rng g) < 1)%Q.
Proof.
  intros H. rewrite rng_fst.
  pose proof (rngWord_word g H) as Hw. unfold word32 in Hw.
  unfold Qle, Qlt. cbn [Qnum Qden]. lia.
Qed.

(** * The sampler *)

(** The index picked for position [i] is one of [0 .. i]. *)
Lemma pickIndex_range (r : Q) (i : nat) :
  (0 <= r < 1)%Q -> 0 <= pickIndex r i <= Z.of_nat i.
Proof.
  intros [Hlo Hhi]. unfold pickIndex.
  set (k := Z.of_nat i + 1).
  assert (Hk : (0 < inject_Z k)%Q) by (unfold Qlt, k; cbn; lia).
  split.
  - change 0 with (Qfloor (inject_Z 0)). apply Qfloor_resp_le.
    apply Qmult_le_0_compat; [exact Hlo | apply Qlt_le_weak, Hk].
  - assert (Hlt : (r * inject_Z k < inject_Z k)%Q).
    { rewrite <- (Qmult_1_l (inject_Z k)) at 2.
      apply Qmult_lt_compat_r; assumption. }
    pose proof (Qfloor_le (r * inject_Z k)) as Hfl.
    assert (H : (inject_Z (Qfloor (r * inject_Z k)) < inject_Z k)%Q)
      by (eapply Qle_lt_trans; eassumption).
    rewrite <- Zlt_Qlt in H. unfold k in *. lia.
Qed.

Lemma swapCells_lookup (l : list Z) (i j k : nat) :
  (i < length l)%nat -> (j < length l)%nat ->
  swapCells l i j !! k =
  if decide (k = j) then l !! i else if decide (k = i) then l !! j else l !! k.
Proof.
  intros Hi Hj. unfold swapCells.
  destruct (lookup_lt_is_Some_2 l i Hi) as [xi Ei].
  destruct (lookup_lt_is_Some_2 l j Hj) as [xj Ej].
  rewrite Ei, Ej. cbn [default].
  destruct (decide (k = j)) as [-> | Hkj].
  - apply list_lookup_insert_eq. rewrite length_insert. exact Hj.
  - rewrite list_lookup_insert_ne by congruence.
    destruct (decide (k = i)) as [-> | Hki].
    + apply list_lookup_insert_eq. exact Hi.
    + apply list_lookup_insert_ne. congruence.
Qed.

(** The destructuring assignment of the source is the exchange of two
    positions. *)
Lemma swapCells_spec (l : list Z) (i j : nat) :
  (i < length l)%nat -> (j < length l)%nat -> swapCells l i j = spec_swap l i j.
Proof.
  intros Hi Hj. apply list_eq. intros k.
  rewrite swapCells_lookup by assumption.
  unfold spec_swap. rewrite list_lookup_imap.
  destruct (lookup_lt_is_Some_2 l i Hi) as [xi Ei].
  destruct (lookup_lt_is_Some_2 l j Hj) as [xj Ej].
  destruct (decide (k = j)) as [Hkj | Hkj];
    destruct (decide (k = i)) as [Hki | Hki]; subst.
  - rewrite Ej. cbn. reflexivity.
  - rewrite Ei, Ej. cbn. reflexivity.
  - rewrite Ei, Ej. cbn. reflexivity.
  - destruct (l !! k); reflexivity.
Qed.

Lemma swapCells_Permutation (l : list Z) (i j : nat) :
  (i < length l)%nat -> (j < length l)%nat -> swapCells l i j ≡ₚ l.
Proof.
  intros Hi Hj. unfold swapCells.
  destruct (lookup_lt_is_Some_2 l i Hi) as [xi Ei].
  destruct (lookup_lt_is_Some_2 l j Hj) as [xj Ej].
  rewrite Ei, Ej. cbn [default].
  apply Permutation_insert_swap; assumption.
Qed.

Section ShuffleFacts.
Context {G : Type}.
Variable draw : G -> Q * G.
(** A property of the generator that every call keeps, under which the
    numbers lie in [0, 1). *)
Variable Inv : G -> Prop.
Hypothesis draw_keeps : forall g, Inv g -> Inv (snd (draw g)).
Hypothesis draw_unit : forall g, Inv g -> (0 <= fst (draw g) < 1)%Q.

(** Inside the loop both indices of the exchange are positions of the
    pool. *)
Lemma shuffle_index_in_range (i : nat) (p : list Z) (g : G) :
  Inv g -> (i < length p)%nat ->
  (Z.to_nat (pickIndex (fst (draw g)) i) < length p)%nat.
Proof.
  intros Hg Hi. pose proof (pickIndex_range _ i (draw_unit g Hg)). lia.
Qed.

Lemma shuffleFrom_facts (i : nat) (s : Shuffled G) :
  Inv (gen s) -> (i < length (pool s))%nat ->
  pool (shuffleFrom draw i s)
    = spec_fisherYates i (pool s) (drawStream draw i (gen s))
  /\ pool (shuffleFrom draw i s) ≡ₚ pool s
  /\ draws (shuffleFrom draw i s) = (draws s + i)%nat
  /\ gen (shuffleFrom draw i s) = afterDraws draw i (gen s)
  /\ Inv (gen (shuffleFrom draw i s)).
Proof.
  revert s. induction i as [| i IH]; intros s Hg Hi.
  - cbn. repeat split; [reflexivity | lia | exact Hg].
  - cbn [shuffleFrom drawStream afterDraws spec_fisherYates].
    pose proof (shuffle_index_in_range (S i) (pool s) (gen s) Hg Hi) as Hj.
    destruct (draw (gen s)) as [r g'] eqn:Ed.
    assert (Hg' : Inv g').
    { replace g' with (snd (draw (gen s))) by (rewrite Ed; reflexivity).
      apply draw_keeps, Hg. }
    cbn [fst snd] in *.
    set (j := Z.to_nat (pickIndex r (S i))) in *.
    set (s' := {| pool := swapCells (pool s) (S i) j; gen := g';
                  draws := S (draws s) |}).
    assert (Hlen : length (pool s') = length (pool s)).
    { unfold s', swapCells. cbn [pool]. rewrite !length_insert. reflexivity. }
    destruct (IH s') as (Hspec & Hperm & Hdraws & Hgen & Hinv).
    { exact Hg'. }
    { rewrite Hlen. lia. }
    repeat split.
    + rewrite Hspec. unfold s'. cbn [pool gen].
      rewrite swapCells_spec by assumption. reflexivity.
    + rewrite Hperm. unfold s'. cbn [pool].
      apply swapCells_Permutation; assumption.
    + rewrite Hdraws. unfold s'. cbn [draws]. lia.
    + exact Hgen.
    + exact Hinv.
Qed.

Lemma shuffle_facts (p : list Z) (g : G) :
  Inv g ->
  let n := Nat.pred (length p) in
  pool (shuffle draw p g) = spec_fisherYates n p (drawStream draw n g)
  /\ pool (shuffle draw p g) ≡ₚ p
  /\ draws (shuffle draw p g) = n
  /\ gen (shuffle draw p g) = afterDraws draw n g
  /\ Inv (gen (shuffle draw p g)).
Proof.
  intros Hg n. unfold shuffle. fold n.
  destruct p as [| x p].
  - cbn. repeat split; [reflexivity | exact Hg].
  - apply (shuffleFrom_facts n {| pool := x :: p; gen := g; draws := 0 |}).
    + exact Hg.
    + unfold n. cbn. lia.
Qed.
End ShuffleFacts.

(** * The validator *)

Lemma remove_dups_length_le (l : list number) :
  (length (remove_dups l) <= length l)%nat.
Proof.
  induction l as [| x l IH]; cbn [remove_dups length]; [lia |].
  destruct (decide_rel elem_of x l); cbn [length]; lia.
Qed.

(** The [Set] has as many values as the array exactly when the array has no
    repetition. *)
Lemma setSize_NoDup (l : list number) : setSize l = length l <-> NoDup l.
Proof.
  unfold setSize. induction l as [| x l IH]; cbn [remove_dups length].
  - split; [constructor | reflexivity].
  - pose proof (remove_dups_length_le l) as Hle.
    destruct (decide_rel elem_of x l) as [Hin | Hnin]; cbn [length].
    + split; [lia |]. intros Hnd. apply NoDup_cons in Hnd as [Hnin _].
      contradiction.
    + split.
      * intros H. apply NoDup_cons. split; [exact Hnin |]. apply IH. lia.
      * intros Hnd. apply NoDup_cons in Hnd as [_ Hnd]. apply IH in Hnd. lia.
Qed.

Lemma ofInt_this (z : Z) : this (Q2Qc (inject_Z z)) = inject_Z z.
Proof.
  cbn [this Q2Qc]. apply Qred_iff. cbn [Qnum Qden inject_Z]. apply Z.gcd_1_r.
Qed.

Lemma num_lt_ofInt (a b : Z) : num_lt (ofInt a) (ofInt b) = (a <? b).
Proof.
  unfold num_lt, ofInt. rewrite !ofInt_this.
  unfold Qle_bool. cbn [Qnum Qden inject_Z].
  rewrite !Z.mul_1_r.
  destruct (Z.ltb_spec a b), (Z.leb_spec b a); cbn; lia || reflexivity.
Qed.

Lemma isInteger_ofInt (z : Z) : isInteger (ofInt z) = true.
Proof. unfold isInteger, ofInt. rewrite ofInt_this. reflexivity. Qed.

(** An integer is a number of the form [ofInt z]. *)
Lemma isInteger_iff (a : number) : isInteger a = true <-> exists z, a = ofInt z.
Proof.
  split.
  - destruct a as [q | | |]; cbn [isInteger]; try discriminate.
    intros Hden%Pos.eqb_eq. exists (Qnum q). unfold ofInt. f_equal.
    apply Qc_is_canon. rewrite ofInt_this.
    destruct q as [[n d] Hq]. cbn [this Qnum Qden] in *. subst d.
    reflexivity.
  - intros [z ->]. apply isInteger_ofInt.
Qed.

Lemma rangeTest_iff (min max : Z) (a : number) :
  num_lt a (ofInt min) || num_lt (ofInt max) a || negb (isInteger a) = false
  <-> inRange min max a.
Proof.
  unfold inRange. split.
  - intros H. apply orb_false_elim in H as [H Hint].
    apply orb_false_elim in H as [Hlo Hhi].
    apply negb_false_iff, isInteger_iff in Hint as [z ->].
    rewrite num_lt_ofInt in Hlo, Hhi.
    exists z. split; [reflexivity | lia].
  - intros (z & -> & Hz).
    rewrite !num_lt_ofInt, isInteger_ofInt.
    destruct (Z.ltb_spec z min), (Z.ltb_spec max z); cbn; lia || reflexivity.
Qed.

Lemma rangeLoop_iff (numbers : list number) (min max : Z) :
  rangeLoop numbers min max = true <-> Forall (inRange min max) numbers.
Proof.
  induction numbers as [| a l IH]; cbn [rangeLoop].
  - split; [constructor | reflexivity].
  - destruct (num_lt a (ofInt min) || num_lt (ofInt max) a || negb (isInteger a))
      eqn:E.
    + split; [discriminate |]. intros H. apply Forall_cons in H as [Ha _].
      apply rangeTest_iff in Ha. congruence.
    + apply rangeTest_iff in E. rewrite IH. split.
      * intros H. constructor; assumption.
      * intros H. apply Forall_cons in H as [_ H]. exact H.
Qed.

Lemma validateNumbers_iff (numbers : list number) (expectedCount min max : Z) :
  validateNumbers numbers expectedCount min max = true
  <-> Z.of_nat (length numbers) = expectedCount
      /\ NoDup numbers
      /\ Forall (inRange min max) numbers.
Proof.
  unfold validateNumbers. cbv zeta.
  destruct (Z.eqb_spec (Z.of_nat (length numbers)) expectedCount) as [Hlen | Hlen];
    cbn [negb].
  - destruct (Z.eqb_spec (Z.of_nat (setSize numbers)) expectedCount) as [Hset | Hset];
      cbn [negb].
    + rewrite rangeLoop_iff.
      assert (Hnd : NoDup numbers) by (apply setSize_NoDup; lia).
      tauto.
    + split; [discriminate |]. intros (_ & Hnd & _).
      apply setSize_NoDup in Hnd. lia.
  - split; [discriminate |]. intros (H & _). contradiction.
Qed.

(** * generateUniqueNumbers *)

Lemma makePool_spec (min max : Z) : makePool min max = spec_pool min max.
Proof. reflexivity. Qed.

Lemma makePool_length (min max : Z) :
  length (makePool min max) = Z.to_nat (max - min + 1).
Proof. rewrite makePool_spec. apply length_seqZ. Qed.


Lemma generate_run (seed : list Z) (count min max : Z) :
  count <= max - min + 1 ->
  generateUniqueNumbers (Ok seed) count min max
  = let s := shuffle rng (makePool min max) (createCSPRNG seed) in
    {| outcome := Ok (sortAscending (slice0 (pool s) count)); shuffled := Some s |}.
Proof.
  intros H. unfold generateUniqueNumbers.
  destruct (Z.ltb_spec (max - min + 1) count); [lia | reflexivity].
Qed.

Lemma generate_rejected (e : Error) (count min max : Z) :
  count <= max - min + 1 ->
  generateUniqueNumbers (Err e) count min max
  = {| outcome := Err e; shuffled := None |}.
Proof.
  intros H. unfold generateUniqueNumbers.
  destruct (Z.ltb_spec (max - min + 1) count); [lia | reflexivity].
Qed.

Lemma slice0_take (p : list Z) (count : Z) :
  0 <= count <= Z.of_nat (length p) -> slice0 p count = take (Z.to_nat count) p.
Proof.
  intros H. unfold slice0. cbv zeta.
  destruct (Z.ltb_spec count 0); [lia |].
  rewrite Z.min_l by lia. reflexivity.
Qed.

(** The shuffle of one run, with the generator of the source. *)
Lemma sample_shuffle (seed : list Z) (min max : Z) :
  let n := Z.to_nat (max - min) in
  let g0 := createCSPRNG seed in
  let s := shuffle rng (makePool min max) g0 in
  pool s = spec_fisherYates n (spec_pool min max) (drawStream rng n g0)
  /\ pool s ≡ₚ spec_pool min max
  /\ draws s = n
  /\ gen s = afterDraws rng n g0.
Proof.
  intros n g0 s.
  destruct (shuffle_facts rng genOk rng_ok rng_unit (makePool min max) g0
              (createCSPRNG_ok seed)) as (H1 & H2 & H3 & H4 & _).
  rewrite makePool_length in *.
  replace (Nat.pred (Z.to_nat (max - min + 1))) with n in * by (unfold n; lia).
  rewrite makePool_spec in *.
  repeat split; assumption.
Qed.

Lemma sortAscending_Sorted (l : list Z) : Sorted Z.le (sortAscending l).
Proof. apply (Sorted_merge_sort Z.le). Qed.

Lemma sortAscending_Permutation (l : list Z) : sortAscending l ≡ₚ l.
Proof. apply merge_sort_Permutation. Qed.

(** What a run returns when the guard lets it through and [count] is not
    negative. *)
Lemma sample_result (seed : list Z) (count min max : Z) :
  0 <= count <= max - min + 1 ->
  exists s r,
    generateUniqueNumbers (Ok seed) count min max
      = {| outcome := Ok r; shuffled := Some s |}
    /\ s = shuffle rng (makePool min max) (createCSPRNG seed)
    /\ r = sortAscending (take (Z.to_nat count) (pool s))
    /\ Sorted Z.le r
    /\ r ≡ₚ take (Z.to_nat count) (pool s)
    /\ Z.of_nat (length r) = count
    /\ NoDup r
    /\ Forall (fun x => min <= x <= max) r.
Proof.
  intros Hc.
  set (s := shuffle rng (makePool min max) (createCSPRNG seed)).
  destruct (sample_shuffle seed min max) as (_ & Hperm & _ & _).
  fold s in Hperm.
  assert (Hlen : length (pool s) = Z.to_nat (max - min + 1)).
  { rewrite Hperm. apply length_seqZ. }
  exists s, (sortAscending (take (Z.to_nat count) (pool s))).
  assert (Hsort := sortAscending_Permutation (take (Z.to_nat count) (pool s))).
  split; [| split; [reflexivity | split; [reflexivity | split; [| split; [| split; [| split]]]]]].
  - rewrite generate_run by lia. cbv zeta. fold s.
    rewrite slice0_take by lia. reflexivity.
  - apply sortAscending_Sorted.
  - exact Hsort.
  - rewrite Hsort, length_take_le; lia.
  - rewrite Hsort. eapply sublist_NoDup; [| apply sublist_take].
    rewrite Hperm. apply NoDup_seqZ.
  - rewrite Hsort. apply Forall_take. rewrite Hperm.
    apply Forall_seqZ. intros x Hx. lia.
Qed.

(** * Hex decoding *)

(** Induction on a list two elements at a time. *)
Lemma pairs_ind (P : list Z -> Prop) :
  P [] -> (forall c, P [c]) -> (forall c1 c2 l, P l -> P (c1 :: c2 :: l)) ->
  forall l, P l.
Proof.
  intros Hnil Hone Hstep l.
  assert (H : P l /\ forall c, P (c :: l)).
  { induction l as [| c l [IH1 IH2]].
    - split; [exact Hnil | exact Hone].
    - split; [apply IH2 |]. intros c'. apply Hstep, IH1. }
  apply H.
Qed.



Lemma hexToBytes_odd (s : list Z) :
  Nat.Odd (length (removeWhitespace s)) -> hexToBytes s = Err OddLengthHex.
Proof.
  intros [k Hk]. unfold hexToBytes. cbv zeta. rewrite Hk.
  replace (Z.of_nat (2 * k + 1) mod 2) with 1.
  - reflexivity.
  - rewrite Nat2Z.inj_add, Nat2Z.inj_mul, Z.mul_comm, Z.add_comm, Z.mod_add by lia.
    reflexivity.
Qed.

(** The 22 hex digits. *)
Lemma isHexDigit_cases (c : Z) :
  isHexDigit c = true ->
  48 <= c <= 57 \/ 65 <= c <= 70 \/ 97 <= c <= 102.
Proof.
  unfold isHexDigit, hexDigit.
  destruct (Z.leb_spec 48 c), (Z.leb_spec c 57), (Z.leb_spec 65 c),
    (Z.leb_spec c 70), (Z.leb_spec 97 c), (Z.leb_spec c 102);
    cbn; intros; try discriminate; lia.
Qed.

Ltac each_digit c H :=
  apply isHexDigit_cases in H;
  destruct H as [H | [H | H]];
  repeat match type of H with
         | ?lo <= c <= ?hi =>
             first [ assert (c = lo) as -> by lia; clear H
                   | let H' := fresh in
                     let H'' := fresh in
                     destruct (Z.eq_dec c lo) as [-> | H'];
                     [ clear H
                     | let lo' := eval vm_compute in (lo + 1) in
                       assert (lo' <= c <= hi) as H'' by lia;
                       clear H H'; rename H'' into H ] ]
         end.

(** Two hex digits parse to the byte they spell. *)
Lemma parseInt16_pair (c1 c2 : Z) :
  isHexDigit c1 = true -> isHexDigit c2 = true ->
  exists byte,
    parseInt16 [c1; c2] = Some byte
    /\ byte = 16 * default 0 (hexDigit c1) + default 0 (hexDigit c2)
    /\ byte mod 256 = byte.
Proof.
  intros H1 H2.
  each_digit c1 H1; each_digit c2 H2;
    (eexists; split; [reflexivity | split; reflexivity]).
Qed.

(** A hex digit is neither white space nor a sign. *)
Lemma hexDigit_plain (c : Z) :
  isHexDigit c = true ->
  isWhiteSpace c = false /\ (c =? 45) = false /\ (c =? 43) = false.
Proof. intros H. each_digit c H; repeat split; reflexivity. Qed.

(** A hex digit followed by anything that is not one parses to the value of
    the digit alone: [parseInt] stops at the first code unit that is not a
    digit.  (Followed by [x] or [X], a [0] is a prefix and the result is
    NaN.) *)
Lemma parseInt16_lenient (c1 c2 : Z) :
  isHexDigit c1 = true -> isHexDigit c2 = false ->
  c2 <> 120 -> c2 <> 88 ->
  parseInt16 [c1; c2] = hexDigit c1.
Proof.
  intros H1 H2 Hx%Z.eqb_neq HX%Z.eqb_neq.
  destruct (hexDigit_plain c1 H1) as (Hws & Hm & Hp).
  unfold parseInt16. cbn [dropWhile]. rewrite Hws. cbv beta iota zeta.
  rewrite Hm, Hp. cbn [orb]. cbv beta iota.
  rewrite Hx, HX. cbn [orb]. rewrite andb_false_r.
  cbn [takeWhile]. rewrite H1, H2.
  cbn [foldl]. unfold isHexDigit in H1.
  destruct (hexDigit c1) as [d |]; [| discriminate].
  cbn [default]. unfold id. f_equal. lia.
Qed.

Lemma decodePairs_wellFormed (s : list Z) :
  wellFormedHex s -> decodePairs s = Ok (spec_hexBytes s).
Proof.
  intros [Heven Hall]. revert Heven Hall.
  induction s as [| c | c1 c2 s IH] using pairs_ind; intros Heven Hall.
  - reflexivity.
  - destruct Heven as [k Hk]. cbn in Hk. lia.
  - apply Forall_cons in Hall as [H1 Hall].
    apply Forall_cons in Hall as [H2 Hall].
    assert (Heven' : Nat.Even (length s)).
    { destruct Heven as [k Hk]. cbn [length] in Hk. exists (k - 1)%nat. lia. }
    cbn [decodePairs spec_hexBytes]. unfold decodeChunk.
    destruct (parseInt16_pair c1 c2 H1 H2) as (byte & -> & Hbyte & Hmod).
    rewrite (IH Heven' Hall), Hmod, Hbyte. reflexivity.
Qed.



Lemma hexToBytes_wellFormed (s : list Z) :
  wellFormedHex (removeWhitespace s) ->
  hexToBytes s = Ok (spec_hexBytes (removeWhitespace s)).
Proof.
  intros H. unfold hexToBytes. cbv zeta.
  destruct H as [[k Hk] Hall].
  replace (Z.of_nat (length (removeWhitespace s)) mod 2) with 0.
  - apply decodePairs_wellFormed. split; [exists k; exact Hk | exact Hall].
  - rewrite Hk, Nat2Z.inj_mul, Z.mul_comm, Z.mod_mul by lia. reflexivity.
Qed.

(** * The properties of the specification *)

(** ** Worked inputs *)

(** The quarter-round on the test vector of RFC 7539, section 2.1.1. *)
Example quarterRound_rfc7539 :
  quarterRound 0 1 2 3 [0x11111111; 0x01020304; 0x9b8d6f43; 0x01234567]
  = [0xea2a92f4; 0xcb1cf8ce; 0x4581472e; 0x5881c4bb].
Proof. vm_compute. reflexivity. Qed.

Example sample_zero_seed :
  outcome (generateUniqueNumbers (Ok zero32) 6 1 49) = Ok [3; 17; 20; 36; 38; 48].
Proof. vm_compute. reflexivity. Qed.

Example hexToBytes_odd_example : hexToBytes (codeUnits "ABC") = Err OddLengthHex.
Proof. vm_compute. reflexivity. Qed.

(** [parseInt] reads ["1g"] as 1, ["-1"] as -1 (stored as 255), and
    rejects ["g1"] and ["0x"]. *)
Example hexToBytes_lenient_example :
  hexToBytes (codeUnits "1g") = Ok [1]
  /\ hexToBytes (codeUnits "-1") = Ok [255]
  /\ hexToBytes (codeUnits "g1") = Err InvalidHexCharacter
  /\ hexToBytes (codeUnits "0x") = Err InvalidHexCharacter.
Proof. vm_compute. repeat split; reflexivity. Qed.

(** ** Block generation *)

(** C1: on a state of sixteen 32-bit words, [chachaBlock] computes the
    block of the specification: ten double rounds on a copy of the state,
    each a column pass over (0,4,8,12), (1,5,9,13), (2,6,10,14), (3,7,11,15)
    followed by a diagonal pass over (0,5,10,15), (1,6,11,12), (2,7,8,13),
    (3,4,9,14) of the quarter-round with additions modulo 2^32, exclusive
    or, and rotations by 16, 12, 8 and 7, and then the addition modulo 2^32
    of the original state, word by word. *)
Theorem C1_block_generation (input output : list Z) :
  words16 input -> length output = 16%nat ->
  chachaBlock input output = spec_block input.
Proof.
  intros Hin Hout. unfold chachaBlock, spec_block. cbv zeta.
  destruct (rounds_spec 10 input Hin) as [Hrounds [Hlen _]].
  rewrite Hrounds.
  apply addInput_spec; [exact Hlen | apply Hin | exact Hout].
Qed.

Lemma C1_block_generation_witness :
  words16 (state (createCSPRNG zero32))
  /\ length (replicate 16 0 : list Z) = 16%nat
  /\ chachaBlock (state (createCSPRNG zero32)) (replicate 16 0)
     = spec_block (state (createCSPRNG zero32)).
Proof.
  assert (H : words16 (state (createCSPRNG zero32)))
    by apply (createCSPRNG_ok zero32).
  split; [exact H |]. split; [reflexivity |].
  apply (C1_block_generation (state (createCSPRNG zero32)) (replicate 16 0) H).
  reflexivity.
Defined.

(** ** Initial state *)



(** ** Counter advance *)

(** C5: a call that produces a new block (the cursor is at 16 or beyond)
    replaces word 12 by its successor modulo 2^32, replaces word 13 by its
    successor modulo 2^32 exactly when the new word 12 is zero, and leaves
    every other word of the state as it was; a call that does not produce a
    block changes neither the state nor the buffer. *)
Theorem C5_counter_advance (g : Csprng) :
  length (state g) = 16%nat ->
  let g' := snd (rngWord g) in
  let c := (u32_get (state g) 12 + 1) mod 2 ^ 32 in
  if (16 <=? bufferIndex g)%nat
  then buffer g' = chachaBlock (state g) (buffer g)
       /\ state g' !! 12%nat = Some c
       /\ state g' !! 13%nat
          = (if c =? 0
             then Some ((u32_get (state g) 13 + 1) mod 2 ^ 32)
             else state g !! 13%nat)
       /\ forall i, i <> 12%nat -> i <> 13%nat -> state g' !! i = state g !! i
  else state g' = state g /\ buffer g' = buffer g.
Proof.
  intros Hlen g' c. unfold g', rngWord. cbv zeta. cbn [snd state buffer].
  destruct (16 <=? bufferIndex g)%nat; [| split; reflexivity].
  rewrite (refill_state g Hlen). cbv zeta. fold (toUint32 (u32_get (state g) 12 + 1)).
  change (toUint32 (u32_get (state g) 12 + 1)) with c.
  split; [reflexivity |].
  destruct (c =? 0).
  - split; [| split].
    + rewrite list_lookup_insert_ne by lia.
      apply list_lookup_insert_eq. lia.
    + apply list_lookup_insert_eq. rewrite length_insert. lia.
    + intros i H12 H13. rewrite !list_lookup_insert_ne by congruence. reflexivity.
  - split; [| split].
    + apply list_lookup_insert_eq. lia.
    + apply list_lookup_insert_ne. lia.
    + intros i H12 H13. apply list_lookup_insert_ne. congruence.
Qed.

Lemma C5_counter_advance_witness :
  length (state (createCSPRNG zero32)) = 16%nat
  /\ state (snd (rngWord (createCSPRNG zero32))) !! 12%nat = Some 1
  /\ state (snd (rngWord (createCSPRNG zero32))) !! 13%nat = Some 0.
Proof.
  split; [reflexivity |].
  destruct (C5_counter_advance (createCSPRNG zero32) eq_refl) as (_ & H12 & H13 & _).
  split; [exact H12 | exact H13].
Defined.

(** ** The sampler *)

(** The shuffled pool depends on the generator through the numbers it
    returns only: two generators, of whatever kind, that return the same
    first [pool.length - 1] numbers leave the same pool. *)
Lemma shuffle_depends_on_draws {G1 G2 : Type}
    (draw1 : G1 -> Q * G1) (draw2 : G2 -> Q * G2)
    (Inv1 : G1 -> Prop) (Inv2 : G2 -> Prop) (p : list Z) (g1 : G1) (g2 : G2) :
  (forall g, Inv1 g -> Inv1 (snd (draw1 g))) ->
  (forall g, Inv1 g -> (0 <= fst (draw1 g) < 1)%Q) ->
  (forall g, Inv2 g -> Inv2 (snd (draw2 g))) ->
  (forall g, Inv2 g -> (0 <= fst (draw2 g) < 1)%Q) ->
  Inv1 g1 -> Inv2 g2 ->
  drawStream draw1 (Nat.pred (length p)) g1 = drawStream draw2 (Nat.pred (length p)) g2 ->
  pool (shuffle draw1 p g1) = pool (shuffle draw2 p g2).
Proof.
  intros K1 U1 K2 U2 H1 H2 Heq.
  destruct (shuffle_facts draw1 Inv1 K1 U1 p g1 H1) as (E1 & _).
  destruct (shuffle_facts draw2 Inv2 K2 U2 p g2 H2) as (E2 & _).
  rewrite E1, E2, Heq. reflexivity.
Qed.





Lemma ofInt_inj (a b : Z) : ofInt a = ofInt b -> a = b.
Proof.
  unfold ofInt. intros H.
  assert (E : this (Q2Qc (inject_Z a)) = this (Q2Qc (inject_Z b))) by congruence.
  rewrite !ofInt_this in E. injection E as E. exact E.
Qed.

(** The numbers of a result, as the validator receives them. *)
Lemma validateNumbers_ints (r : list Z) (count min max : Z) :
  Z.of_nat (length r) = count -> NoDup r -> Forall (fun x => min <= x <= max) r ->
  validateNumbers (ofInt <$> r) count min max = true.
Proof.
  intros Hlen Hnd Hrange. apply validateNumbers_iff. split; [| split].
  - rewrite length_fmap. exact Hlen.
  - apply NoDup_fmap_2; [| exact Hnd]. intros a b. apply ofInt_inj.
  - apply Forall_fmap. eapply Forall_impl; [exact Hrange |].
    intros x Hx. exists x. split; [reflexivity | exact Hx].
Qed.





(** ** Determinism *)



(** ** Encoding errors *)




(** ** The validator *)

(** C9: the validator returns [true] exactly when the array has
    [expectedCount] elements, no two of them equal (the set has as many
    values as the array has elements), and every element is an integer of
    [[min, max]].  It is a total function of its arguments and reads the
    array only. *)
Theorem C9_validator (numbers : list number) (expectedCount min max : Z) :
  validateNumbers numbers expectedCount min max = true
  <-> Z.of_nat (length numbers) = expectedCount
      /\ (NoDup numbers /\ setSize numbers = length numbers)
      /\ Forall (fun a => exists z, a = ofInt z /\ min <= z <= max) numbers.
Proof.
  rewrite validateNumbers_iff. unfold inRange.
  split.
  - intros (Hlen & Hnd & Hall). repeat split; try assumption.
    apply setSize_NoDup, Hnd.
  - intros (Hlen & (Hnd & _) & Hall). repeat split; assumption.
Qed.

Lemma C9_validator_witness :
  validateNumbers (ofInt <$> [3; 17; 20; 36; 38; 48]) 6 1 49 = true
  /\ (validateNumbers [Finite (Q2Qc (1 # 2))] 1 0 49 = true -> False).
Proof.
  split.
  - apply (proj2 (C9_validator (ofInt <$> [3; 17; 20; 36; 38; 48]) 6 1 49)).
    split; [reflexivity |]. split; [split; [| reflexivity] |].
    + apply NoDup_fmap_2; [intros a b; apply ofInt_inj |].
      apply (bool_decide_unpack (NoDup [3; 17; 20; 36; 38; 48])).
      vm_compute. exact I.
    + repeat constructor; eexists; (split; [reflexivity | lia]).
  - intros H. apply (proj1 (C9_validator _ _ _ _)) in H as (_ & _ & Hall).
    apply Forall_cons in Hall as [(z & Hz & _) _].
    apply (f_equal isInteger) in Hz. rewrite isInteger_ofInt in Hz.
    discriminate Hz.
Defined.

(** ** White space *)



Example hexToBytes_spaced_example :
  hexToBytes spacedHex = Ok [222; 173; 190; 239]
  /\ hexToBytes spacedHex = hexToBytes (codeUnits "deadbeef").
Proof. vm_compute. split; reflexivity. Qed.

(** * Further properties *)

(** ** The generator as a counter-mode stream *)

Lemma rngWord_refills (g : Csprng) :
  (16 <= bufferIndex g)%nat ->
  rngWord g = (u32_get (buffer (refill g)) 0,
               {| state := state (refill g); bufferIndex := 1;
                  buffer := buffer (refill g) |}).
Proof.
  intros H. unfold rngWord. cbv zeta.
  destruct (Nat.leb_spec 16 (bufferIndex g)); [reflexivity | lia].
Qed.

Lemma rngWord_reads (g : Csprng) :
  (bufferIndex g < 16)%nat ->
  rngWord g = (u32_get (buffer g) (bufferIndex g),
               {| state := state g; bufferIndex := S (bufferIndex g);
                  buffer := buffer g |}).
Proof.
  intros H. unfold rngWord. cbv zeta.
  destruct (Nat.leb_spec 16 (bufferIndex g)); [lia | reflexivity].
Qed.

Lemma afterDraws_add {G : Type} (draw : G -> Q * G) (a b : nat) (g : G) :
  afterDraws draw (a + b) g = afterDraws draw b (afterDraws draw a g).
Proof.
  revert g. induction a as [| a IH]; intros g; cbn [afterDraws Nat.add].
  - reflexivity.
  - apply IH.
Qed.

(** Reads that stay inside the buffer move the cursor and nothing else. *)
Lemma afterDraws_inside (k : nat) (g : Csprng) :
  (bufferIndex g + k <= 16)%nat ->
  afterDraws rng k g
  = {| state := state g; bufferIndex := bufferIndex g + k; buffer := buffer g |}.
Proof.
  revert g. induction k as [| k IH]; intros g Hk; cbn [afterDraws].
  - destruct g as [st idx buf]. cbn [state bufferIndex buffer].
    rewrite Nat.add_0_r. reflexivity.
  - rewrite rng_snd, rngWord_reads by lia. cbn [snd].
    rewrite IH by (cbn [bufferIndex]; lia). cbn [state bufferIndex buffer].
    f_equal. lia.
Qed.

(** From an exhausted buffer, [k] calls ([1 <= k <= 16]) refill once. *)
Lemma afterDraws_block (k : nat) (g : Csprng) :
  (16 <= bufferIndex g)%nat -> (1 <= k <= 16)%nat ->
  afterDraws rng k g
  = {| state := state (refill g); bufferIndex := k; buffer := buffer (refill g) |}.
Proof.
  intros Hg Hk. destruct k as [| k]; [lia |]. cbn [afterDraws].
  rewrite rng_snd, rngWord_refills by exact Hg. cbn [snd].
  rewrite afterDraws_inside by (cbn [bufferIndex]; lia).
  cbn [state bufferIndex buffer]. reflexivity.
Qed.

(** A refill adds one to the number the counter words hold. *)
Lemma refill_counter (st0 : list Z) (q : Z) (idx : nat) (buf : list Z) :
  length st0 = 16%nat -> 0 <= q ->
  state (refill {| state := counterState st0 q; bufferIndex := idx; buffer := buf |})
  = counterState st0 (q + 1).
Proof.
  intros Hlen Hq.
  rewrite refill_state
    by (cbn [state]; unfold counterState; rewrite !length_insert; exact Hlen).
  cbv zeta. cbn [state].
  explode16 st0 Hlen. unfold counterState, u32_get, toUint32.
  cbn [lookup list_lookup insert list_insert default]. unfold id.
  change (2 ^ 32) with 4294967296.
  assert (E12 : (q mod 4294967296 + 1) mod 4294967296 = (q + 1) mod 4294967296).
  { rewrite Zplus_mod_idemp_l. reflexivity. }
  rewrite E12.
  pose proof (Z.div_mod q 4294967296 ltac:(lia)) as Dq.
  pose proof (Z.div_mod (q + 1) 4294967296 ltac:(lia)) as Dq1.
  pose proof (Z.mod_pos_bound q 4294967296 ltac:(lia)) as Bq.
  pose proof (Z.mod_pos_bound (q + 1) 4294967296 ltac:(lia)) as Bq1.
  destruct (Z.eqb_spec ((q + 1) mod 4294967296) 0) as [Hz | Hnz].
  - assert (Hd : (q + 1) / 4294967296 = q / 4294967296 + 1) by lia.
    rewrite Hd, Zplus_mod_idemp_l. reflexivity.
  - assert (Hd : (q + 1) / 4294967296 = q / 4294967296) by lia.
    rewrite Hd. reflexivity.
Qed.

Lemma afterDraws_ok (n : nat) (g : Csprng) : genOk g -> genOk (afterDraws rng n g).
Proof.
  revert g. induction n as [| n IH]; intros g Hg; cbn [afterDraws].
  - exact Hg.
  - apply IH, rng_ok, Hg.
Qed.

(** The constructor leaves both counter words at zero. *)
Lemma createCSPRNG_counter (seed : list Z) :
  counterState (state (createCSPRNG seed)) 0 = state (createCSPRNG seed).
Proof.
  unfold createCSPRNG. cbv zeta. cbn [state].
  set (st := seedLoop 8 seed 0 (replicate 16 0)).
  assert (Hlen : length st = 16%nat) by apply (seedLoop_words16 8 seed 0 _ zeros_words16).
  explode16 st Hlen. reflexivity.
Qed.

Lemma counterState_length (st0 : list Z) (q : Z) :
  length (counterState st0 q) = length st0.
Proof. unfold counterState. rewrite !length_insert. reflexivity. Qed.

(** After [16 * q] calls, [q] blocks have been generated and the buffer is
    exhausted. *)
Lemma afterDraws_blocks (seed : list Z) (q : nat) :
  let g := afterDraws rng (16 * q) (createCSPRNG seed) in
  state g = counterState (state (createCSPRNG seed)) (Z.of_nat q)
  /\ bufferIndex g = 16%nat.
Proof.
  induction q as [| q [IHs IHi]].
  - cbn [Nat.mul afterDraws]. split; [| reflexivity].
    symmetry. apply createCSPRNG_counter.
  - cbv zeta in *.
    replace (16 * S q)%nat with (16 * q + 16)%nat by lia.
    rewrite afterDraws_add.
    destruct (afterDraws rng (16 * q) (createCSPRNG seed)) as [st idx buf].
    cbn [state bufferIndex] in IHs, IHi. subst st idx.
    rewrite afterDraws_block by (cbn [bufferIndex]; lia).
    cbn [state bufferIndex]. split; [| reflexivity].
    rewrite refill_counter by (apply (createCSPRNG_ok seed) || lia).
    f_equal. lia.
Qed.

Lemma afterDraws_partial (seed : list Z) (q k : nat) :
  (1 <= k <= 16)%nat ->
  let st0 := state (createCSPRNG seed) in
  let g := afterDraws rng (16 * q + k) (createCSPRNG seed) in
  state g = counterState st0 (Z.of_nat q + 1)
  /\ bufferIndex g = k
  /\ buffer g = spec_block (counterState st0 (Z.of_nat q)).
Proof.
  intros Hk st0 g.
  destruct (afterDraws_blocks seed q) as [Hs Hi].
  pose proof (afterDraws_ok (16 * q) _ (createCSPRNG_ok seed)) as Hok.
  assert (Hlen0 : length st0 = 16%nat) by apply (createCSPRNG_ok seed).
  unfold g. rewrite afterDraws_add.
  destruct (afterDraws rng (16 * q) (createCSPRNG seed)) as [st idx buf].
  cbn [state bufferIndex] in Hs, Hi. subst st idx. fold st0 in Hok |- *.
  rewrite afterDraws_block by (cbn [bufferIndex]; lia).
  cbn [state bufferIndex buffer].
  rewrite refill_counter by (exact Hlen0 || lia).
  split; [reflexivity |]. split; [reflexivity |].
  unfold refill. cbn [state buffer].
  apply chachaBlock_spec; [apply Hok | apply Hok].
Qed.

(** X1: the generator is a counter-mode stream.  After [16 * q + k] calls
    with [1 <= k <= 16], words 12 and 13 hold the low and the high 32 bits
    of [q + 1] (a counter of 64 bits), every other word of the state is as
    the constructor left it (words 14 and 15 stay zero), the cursor is [k],
    and the buffer is the block of the state with counter [q]. *)
Theorem counter_after_draws (seed : list Z) (q k : nat) :
  (1 <= k <= 16)%nat ->
  let st0 := state (createCSPRNG seed) in
  let g := afterDraws rng (16 * q + k) (createCSPRNG seed) in
  state g = counterState st0 (Z.of_nat q + 1)
  /\ bufferIndex g = k
  /\ buffer g = spec_block (counterState st0 (Z.of_nat q))
  /\ (forall i, i <> 12%nat -> i <> 13%nat -> state g !! i = st0 !! i)
  /\ u32_get (state g) 12 + 2 ^ 32 * u32_get (state g) 13
     = (Z.of_nat q + 1) mod 2 ^ 64.
Proof.
  intros Hk st0 g.
  destruct (afterDraws_partial seed q k Hk) as (Hst & Hidx & Hbuf).
  fold st0 g in Hst, Hidx, Hbuf.
  assert (Hlen0 : length st0 = 16%nat) by apply (createCSPRNG_ok seed).
  split; [exact Hst |]. split; [exact Hidx |]. split; [exact Hbuf |].
  rewrite Hst. split.
  - intros i H12 H13. unfold counterState.
    rewrite !list_lookup_insert_ne by congruence. reflexivity.
  - assert (H12 : counterState st0 (Z.of_nat q + 1) !! 12%nat
                  = Some ((Z.of_nat q + 1) mod 2 ^ 32)).
    { unfold counterState. rewrite list_lookup_insert_ne by lia.
      apply list_lookup_insert_eq. lia. }
    assert (H13 : counterState st0 (Z.of_nat q + 1) !! 13%nat
                  = Some (((Z.of_nat q + 1) / 2 ^ 32) mod 2 ^ 32)).
    { unfold counterState. apply list_lookup_insert_eq.
      rewrite length_insert. lia. }
    unfold u32_get. rewrite H12, H13. cbn [default]. unfold id.
    change (2 ^ 64) with (2 ^ 32 * 2 ^ 32).
    rewrite Z.rem_mul_r by lia. reflexivity.
Qed.

Lemma counter_after_draws_witness :
  (1 <= 3 <= 16)%nat
  /\ bufferIndex (afterDraws rng (16 * 2 + 3) (createCSPRNG zero32)) = 3%nat
  /\ u32_get (state (afterDraws rng (16 * 2 + 3) (createCSPRNG zero32))) 12
     + 2 ^ 32 * u32_get (state (afterDraws rng (16 * 2 + 3) (createCSPRNG zero32))) 13
     = (Z.of_nat 2 + 1) mod 2 ^ 64.
Proof.
  assert (H : (1 <= 3 <= 16)%nat) by lia.
  split; [exact H |].
  destruct (counter_after_draws zero32 2 3 H) as (_ & Hi & _ & _ & Hc).
  split; [exact Hi | exact Hc].
Defined.

(** X2: the keystream.  Call number [16 * q + k] (counting from 0, with
    [k < 16]) returns word [k] of the block of the state with counter [q],
    divided by 2^32: a number of [0, 1). *)
Theorem keystream_word (seed : list Z) (q k : nat) :
  (k < 16)%nat ->
  let st0 := state (createCSPRNG seed) in
  let g := afterDraws rng (16 * q + k) (createCSPRNG seed) in
  fst (rngWord g) = u32_get (spec_block (counterState st0 (Z.of_nat q))) k
  /\ fst (rng g) = (fst (rngWord g) # 4294967296)%Q
  /\ word32 (fst (rngWord g))
  /\ (0 <= fst (rng g) < 1)%Q.
Proof.
  intros Hk st0 g.
  assert (Hok : genOk g) by apply afterDraws_ok, createCSPRNG_ok.
  split; [| split; [apply rng_fst | split; [apply rngWord_word, Hok | apply rng_unit, Hok]]].
  destruct k as [| k].
  - unfold g. rewrite Nat.add_0_r.
    destruct (afterDraws_blocks seed q) as [Hs Hi].
    pose proof (afterDraws_ok (16 * q) _ (createCSPRNG_ok seed)) as Hok'.
    rewrite rngWord_refills by lia. cbn [fst].
    unfold refill. cbn [buffer]. rewrite chachaBlock_spec by apply Hok'.
    rewrite Hs. reflexivity.
  - destruct (afterDraws_partial seed q (S k) ltac:(lia)) as (_ & Hi & Hb).
    fold g in Hi, Hb.
    rewrite rngWord_reads by lia. cbn [fst]. rewrite Hb, Hi. reflexivity.
Qed.

Lemma keystream_word_witness :
  (3 < 16)%nat
  /\ fst (rngWord (afterDraws rng (16 * 1 + 3) (createCSPRNG zero32)))
     = u32_get (spec_block (counterState (state (createCSPRNG zero32)) (Z.of_nat 1))) 3.
Proof.
  assert (H : (3 < 16)%nat) by lia.
  split; [exact H |]. apply (keystream_word zero32 1 3 H).
Defined.

(** ** Seeds of other lengths *)

Lemma u8_get_seed32 (seed : list Z) (k : nat) :
  (k < 32)%nat -> u8_get (seed32 seed) k = u8_get seed k.
Proof.
  intros Hk. unfold u8_get, seed32.
  rewrite lookup_take_lt by exact Hk.
  destruct (Nat.lt_ge_cases k (length seed)) as [Hlt | Hge].
  - rewrite lookup_app_l by exact Hlt. reflexivity.
  - rewrite lookup_app_r by exact Hge.
    rewrite lookup_replicate_2 by lia.
    rewrite (lookup_ge_None_2 seed k) by exact Hge. reflexivity.
Qed.

Lemma seedWord_seed32 (seed : list Z) (i : nat) :
  (i < 8)%nat -> seedWord (seed32 seed) i = seedWord seed i.
Proof.
  intros Hi. unfold seedWord. rewrite !u8_get_seed32 by lia. reflexivity.
Qed.

(** Past the end of the seed the word is zero. *)
Lemma seedWord_past (seed : list Z) (i : nat) :
  (length seed <= i * 4)%nat -> seedWord seed i = 0.
Proof.
  intros Hi. unfold seedWord, u8_get.
  rewrite !(lookup_ge_None_2 seed) by lia. reflexivity.
Qed.

Lemma seed32_length (seed : list Z) : length (seed32 seed) = 32%nat.
Proof.
  unfold seed32. rewrite length_take, length_app, length_replicate. lia.
Qed.

(** The loop, stopped early or not, writes the eight words of the seed
    into a zero array. *)
Lemma seedLoop_words (seed : list Z) (n i : nat) (st : list Z) :
  (i + n = 8)%nat -> length st = 16%nat ->
  (forall j, (i <= j < 8)%nat -> st !! j = Some 0) ->
  seedLoop n seed i st
  = foldl (fun s j => u32_set s j (seedWord seed j)) st (seq i n).
Proof.
  revert i st. induction n as [| n IH]; intros i st Hin Hlen Hzero.
  - reflexivity.
  - cbn [seedLoop seq foldl].
    replace (i <? 8)%nat with true by (symmetry; apply Nat.ltb_lt; lia).
    cbn [andb].
    destruct (Nat.ltb_spec (i * 4) (length seed)) as [Hlt | Hge].
    + apply IH; [lia | rewrite u32_set_length; exact Hlen |].
      intros j Hj. unfold u32_set. rewrite list_lookup_insert_ne by lia.
      apply Hzero. lia.
    + assert (Hnoop : forall m k s, (i <= k)%nat -> (k + m <= 8)%nat ->
                (forall j, (k <= j < 8)%nat -> s !! j = Some 0) ->
                foldl (fun s j => u32_set s j (seedWord seed j)) s (seq k m) = s).
      { induction m as [| m IHm]; intros k s Hk Hkm Hs; [reflexivity |].
        cbn [seq foldl]. rewrite seedWord_past by lia.
        unfold u32_set at 2. change (toUint32 0) with 0.
        rewrite list_insert_id by (apply Hs; lia).
        apply IHm; [lia | lia |]. intros j Hj. apply Hs. lia. }
      rewrite seedWord_past by lia.
      unfold u32_set at 2. change (toUint32 0) with 0.
      rewrite list_insert_id by (apply Hzero; lia).
      symmetry. apply Hnoop; [lia | lia |]. intros j Hj. apply Hzero. lia.
Qed.

(** X3: the constructor reads the first 32 bytes of the seed and takes the
    bytes a shorter seed lacks as zero: the generator of a seed is the
    generator of the seed cut or zero-filled to 32 bytes. *)
Theorem createCSPRNG_seed32 (seed : list Z) :
  createCSPRNG seed = createCSPRNG (seed32 seed)
  /\ length (seed32 seed) = 32%nat
  /\ (length seed = 32%nat -> seed32 seed = seed).
Proof.
  split; [| split; [apply seed32_length |]].
  - unfold createCSPRNG. cbv zeta. do 2 f_equal.
    assert (Hz : forall j, (0 <= j < 8)%nat -> replicate 16 0 !! j = Some 0)
      by (intros j Hj; apply lookup_replicate_2; lia).
    rewrite (seedLoop_words seed 8 0) by (reflexivity || exact Hz).
    rewrite (seedLoop_words (seed32 seed) 8 0) by (reflexivity || exact Hz).
    cbn [seq foldl]. rewrite !seedWord_seed32 by lia. reflexivity.
  - intros Hlen. unfold seed32.
    rewrite take_app_length' by (symmetry; exact Hlen). reflexivity.
Qed.

Lemma createCSPRNG_seed32_witness :
  length zero32 = 32%nat
  /\ seed32 zero32 = zero32
  /\ createCSPRNG [1; 2; 3] = createCSPRNG (seed32 [1; 2; 3]).
Proof.
  split; [reflexivity |]. split.
  - apply (proj2 (proj2 (createCSPRNG_seed32 zero32))). reflexivity.
  - apply (proj1 (createCSPRNG_seed32 [1; 2; 3])).
Defined.

(** ** How even the pick of an index is *)





(** ** The sampler at its bounds *)




(** ** The public entry points *)

Lemma entry_points_ok
    (hmacSha256 : list Z -> list Z -> list Z) (textEncode : list Z -> list Z)
    (beacon bytes : list Z) :
  hexToBytes beacon = Ok bytes ->
  exists r6 r7,
    outcome (generate649Numbers hmacSha256 textEncode beacon) = Ok r6
    /\ validateNumbers (ofInt <$> r6) 6 1 49 = true
    /\ Sorted Z.le r6
    /\ outcome (generateLottoMaxNumbers hmacSha256 textEncode beacon) = Ok r7
    /\ validateNumbers (ofInt <$> r7) 7 1 50 = true
    /\ Sorted Z.le r7.
Proof.
  intros E.
  unfold generate649Numbers, generateLottoMaxNumbers, deriveSeed. cbv zeta.
  rewrite E.
  destruct (sample_result (hmacSha256 bytes (textEncode (codeUnits "649"))) 6 1 49
              ltac:(lia))
    as (s6 & r6 & Hrun6 & _ & _ & Hsorted6 & _ & Hlen6 & Hnd6 & Hrange6).
  destruct (sample_result (hmacSha256 bytes (textEncode (codeUnits "max"))) 7 1 50
              ltac:(lia))
    as (s7 & r7 & Hrun7 & _ & _ & Hsorted7 & _ & Hlen7 & Hnd7 & Hrange7).
  exists r6, r7. rewrite Hrun6, Hrun7. cbn [outcome].
  repeat split; try assumption; try reflexivity;
    apply validateNumbers_ints; assumption.
Qed.

Lemma entry_points_err
    (hmacSha256 : list Z -> list Z -> list Z) (textEncode : list Z -> list Z)
    (beacon : list Z) (e : Error) :
  hexToBytes beacon = Err e ->
  generate649Numbers hmacSha256 textEncode beacon
  = {| outcome := Err e; shuffled := None |}
  /\ generateLottoMaxNumbers hmacSha256 textEncode beacon
     = {| outcome := Err e; shuffled := None |}.
Proof.
  intros E.
  unfold generate649Numbers, generateLottoMaxNumbers, deriveSeed. cbv zeta.
  rewrite E. split; apply generate_rejected; lia.
Qed.


(** ** What the validator accepts *)

(** X7: an array the validator accepts has between 0 and
    [max - min + 1] elements: distinct integers of a range are no more than
    the range holds.  A non-empty accepted array therefore has a count that
    passes the guard of [generateUniqueNumbers]. *)
Theorem validateNumbers_count (numbers : list number) (expectedCount min max : Z) :
  validateNumbers numbers expectedCount min max = true ->
  0 <= expectedCount <= Z.max 0 (max - min + 1).
Proof.
  intros H. apply validateNumbers_iff in H as (Hlen & Hnd & Hall).
  assert (Hsub : numbers ⊆+ (ofInt <$> seqZ min (max - min + 1))).
  { apply NoDup_submseteq; [exact Hnd |].
    intros a Ha. rewrite Forall_forall in Hall.
    destruct (Hall a Ha) as (z & -> & Hz).
    apply list_elem_of_fmap. exists z. split; [reflexivity |].
    apply elem_of_seqZ. lia. }
  apply submseteq_length in Hsub.
  rewrite length_fmap, length_seqZ in Hsub. lia.
Qed.

Lemma validateNumbers_count_witness :
  validateNumbers (ofInt <$> [2; 1; 3]) 3 1 3 = true
  /\ 0 <= 3 <= Z.max 0 (3 - 1 + 1).
Proof.
  assert (H : validateNumbers (ofInt <$> [2; 1; 3]) 3 1 3 = true)
    by (vm_compute; reflexivity).
  split; [exact H |]. apply (validateNumbers_count _ 3 1 3 H).
Defined.

(** X8: the validator does not look at the order of the array: two
    arrangements of the same numbers get the same answer.  In particular it
    does not check that a result is ascending. *)
Theorem validateNumbers_order (numbers numbers' : list number)
    (expectedCount min max : Z) :
  numbers ≡ₚ numbers' ->
  validateNumbers numbers expectedCount min max
  = validateNumbers numbers' expectedCount min max.
Proof.
  intros Hperm.
  assert (Hiff : validateNumbers numbers expectedCount min max = true
                 <-> validateNumbers numbers' expectedCount min max = true).
  { rewrite !validateNumbers_iff, Hperm. reflexivity. }
  destruct (validateNumbers numbers expectedCount min max),
    (validateNumbers numbers' expectedCount min max);
    try reflexivity.
  - symmetry. apply Hiff. reflexivity.
  - apply Hiff. reflexivity.
Qed.

Lemma validateNumbers_order_witness :
  ofInt <$> [3; 1; 2] ≡ₚ ofInt <$> [1; 2; 3]
  /\ validateNumbers (ofInt <$> [3; 1; 2]) 3 1 49
     = validateNumbers (ofInt <$> [1; 2; 3]) 3 1 49.
Proof.
  assert (H : ofInt <$> [3; 1; 2] ≡ₚ ofInt <$> [1; 2; 3]).
  { cbn [fmap list_fmap]. rewrite (Permutation_swap (ofInt 1) (ofInt 3)).
    apply Permutation_skip, Permutation_swap. }
  split; [exact H |]. apply (validateNumbers_order _ _ 3 1 49 H).
Defined.

(** ** The texts that [hexToBytes] accepts *)

Lemma removeWhitespace_clean (s : list Z) :
  Forall (fun c => isWhiteSpace c = false) (removeWhitespace s).
Proof.
  unfold removeWhitespace. induction s as [| c s IH]; cbn [List.filter].
  - constructor.
  - destruct (isWhiteSpace c) eqn:E; cbn [negb].
    + exact IH.
    + constructor; assumption.
Qed.

Lemma hexDigit_small (c : Z) :
  isHexDigit c = true -> 0 <= default 0 (hexDigit c) < 16.
Proof. intros H. each_digit c H; vm_compute; split; congruence. Qed.

(** What [parseInt] makes of two code units, the first no white space. *)
Lemma parseInt16_chunk (c1 c2 : Z) :
  isWhiteSpace c1 = false ->
  if pairParses c1 c2
  then exists v, parseInt16 [c1; c2] = Some v /\ v mod 256 = pairByte c1 c2
  else parseInt16 [c1; c2] = None.
Proof.
  intros Hws. unfold parseInt16, pairParses, pairByte.
  cbn [dropWhile]. rewrite Hws. cbv beta iota zeta.
  destruct (Z.eqb_spec c1 43) as [-> | H43].
  { change (isHexDigit 43) with false. change (43 =? 45) with false.
    change (43 =? 48) with false.
    cbn [orb andb negb]. cbv beta iota.
    destruct (isHexDigit c2) eqn:E2; cbn [takeWhile]; rewrite ?E2.
    - pose proof (hexDigit_small c2 E2). cbn [takeWhile foldl].
      eexists. split; [reflexivity |].
      rewrite Z.mod_small by lia. lia.
    - reflexivity. }
  destruct (Z.eqb_spec c1 45) as [-> | H45].
  { change (isHexDigit 45) with false. change (45 =? 48) with false.
    cbn [orb andb negb]. cbv beta iota.
    destruct (isHexDigit c2) eqn:E2; cbn [takeWhile]; rewrite ?E2.
    - cbn [takeWhile foldl]. eexists. split; [reflexivity |]. f_equal; lia.
    - reflexivity. }
  cbn [orb andb]. rewrite orb_false_r.
  destruct (isHexDigit c1) eqn:E1.
  - pose proof (hexDigit_small c1 E1) as Hd1.
    destruct ((c1 =? 48) && ((c2 =? 120) || (c2 =? 88))) eqn:Ex; cbn [andb negb].
    + reflexivity.
    + cbn [takeWhile]. rewrite E1.
      destruct (isHexDigit c2) eqn:E2.
      * pose proof (hexDigit_small c2 E2) as Hd2.
        cbn [takeWhile foldl]. eexists. split; [reflexivity |].
        rewrite Z.mod_small by lia. lia.
      * cbn [takeWhile foldl]. eexists. split; [reflexivity |].
        rewrite Z.mod_small by lia. lia.
  - assert (H48 : (c1 =? 48) = false).
    { destruct (Z.eqb_spec c1 48) as [-> | ?]; [discriminate E1 | reflexivity]. }
    rewrite H48. cbn [andb takeWhile]. rewrite E1. reflexivity.
Qed.

Lemma decodePairs_cases (s : list Z) :
  Nat.Even (length s) -> Forall (fun c => isWhiteSpace c = false) s ->
  decodePairs s
  = if allPairs pairParses s then Ok (pairBytes s) else Err InvalidHexCharacter.
Proof.
  induction s as [| c | c1 c2 s IH] using pairs_ind; intros Heven Hall.
  - reflexivity.
  - destruct Heven as [k Hk]. cbn in Hk. lia.
  - apply Forall_cons in Hall as [H1 Hall].
    apply Forall_cons in Hall as [_ Hall].
    assert (Heven' : Nat.Even (length s)).
    { destruct Heven as [k Hk]. cbn [length] in Hk. exists (k - 1)%nat. lia. }
    cbn [decodePairs allPairs pairBytes]. unfold decodeChunk.
    pose proof (parseInt16_chunk c1 c2 H1) as Hp.
    destruct (pairParses c1 c2); cbn [andb].
    + destruct Hp as (v & -> & Hv). rewrite (IH Heven' Hall).
      destruct (allPairs pairParses s); [rewrite Hv |]; reflexivity.
    + rewrite Hp. reflexivity.
Qed.

Lemma odd_length_test (n : nat) :
  negb (Z.of_nat n mod 2 =? 0) = Nat.odd n.
Proof.
  rewrite <- Nat.negb_even. f_equal.
  destruct (Nat.even n) eqn:E.
  - apply Nat.even_spec in E as [k ->].
    rewrite Nat2Z.inj_mul, Z.mul_comm, Z.mod_mul by lia. reflexivity.
  - assert (Ho : Nat.odd n = true) by (rewrite <- Nat.negb_even, E; reflexivity).
    apply Nat.odd_spec in Ho as [k ->].
    rewrite Nat2Z.inj_add, Nat2Z.inj_mul, Z.mul_comm, Z.add_comm, Z.mod_add by lia.
    reflexivity.
Qed.

(** X9: the whole behaviour of [hexToBytes], without [parseInt].  With the
    white space removed, a text of odd length gives the odd-length error;
    a text of even length decodes exactly when each of its pairs is a hex
    digit followed by any code unit (other than [0x], [0X]) or a sign
    followed by a hex digit, and then to the bytes of [pairByte]; any other
    text gives the invalid-character error.  So ["1g"], ["+f"] and ["-1"]
    decode, and ["g1"] and ["0x"] do not. *)
Theorem hexToBytes_cases (hex : list Z) :
  let clean := removeWhitespace hex in
  hexToBytes hex
  = if Nat.odd (length clean) then Err OddLengthHex
    else if allPairs pairParses clean then Ok (pairBytes clean)
         else Err InvalidHexCharacter.
Proof.
  intros clean. unfold hexToBytes. cbv zeta. fold clean.
  rewrite odd_length_test.
  destruct (Nat.odd (length clean)) eqn:E; [reflexivity |].
  apply decodePairs_cases.
  - apply Nat.even_spec. rewrite <- Nat.negb_odd, E. reflexivity.
  - apply removeWhitespace_clean.
Qed.

Lemma pairByte_byte (c1 c2 : Z) : is_byte (pairByte c1 c2).
Proof.
  unfold pairByte, is_byte. cbv zeta.
  assert (H : forall c, 0 <= default 0 (hexDigit c) < 16).
  { intros c. destruct (isHexDigit c) eqn:E.
    - apply hexDigit_small, E.
    - unfold isHexDigit in E. destruct (hexDigit c); [discriminate | cbn; lia]. }
  pose proof (H c1). pose proof (H c2).
  destruct (isHexDigit c1), (isHexDigit c2), (c1 =? 45);
    try lia; apply Z.mod_pos_bound; lia.
Qed.

Lemma pairBytes_shape (s : list Z) :
  Nat.Even (length s) ->
  length s = (2 * length (pairBytes s))%nat /\ Forall is_byte (pairBytes s).
Proof.
  induction s as [| c | c1 c2 s IH] using pairs_ind; intros Heven.
  - split; [reflexivity | constructor].
  - destruct Heven as [k Hk]. cbn in Hk. lia.
  - assert (Heven' : Nat.Even (length s)).
    { destruct Heven as [k Hk]. cbn [length] in Hk. exists (k - 1)%nat. lia. }
    destruct (IH Heven') as [Hl Hb]. cbn [pairBytes length]. split.
    + lia.
    + constructor; [apply pairByte_byte | exact Hb].
Qed.

(** X10: when [hexToBytes] succeeds, the result has one byte for every two
    code units that are not white space, and every byte lies in
    [0 .. 255]. *)
Theorem hexToBytes_shape (hex bytes : list Z) :
  hexToBytes hex = Ok bytes ->
  length (removeWhitespace hex) = (2 * length bytes)%nat
  /\ Forall is_byte bytes.
Proof.
  intros H. unfold hexToBytes in H. cbv zeta in H.
  rewrite odd_length_test in H.
  destruct (Nat.odd (length (removeWhitespace hex))) eqn:E; [discriminate |].
  assert (Heven : Nat.Even (length (removeWhitespace hex)))
    by (apply Nat.even_spec; rewrite <- Nat.negb_odd, E; reflexivity).
  rewrite (decodePairs_cases _ Heven (removeWhitespace_clean hex)) in H.
  destruct (allPairs pairParses (removeWhitespace hex)); [| discriminate].
  injection H as <-. apply pairBytes_shape, Heven.
Qed.

Lemma hexToBytes_shape_witness :
  hexToBytes spacedHex = Ok [222; 173; 190; 239]
  /\ length (removeWhitespace spacedHex) = (2 * length [222; 173; 190; 239])%nat
  /\ Forall is_byte [222; 173; 190; 239].
Proof.
  assert (H : hexToBytes spacedHex = Ok [222; 173; 190; 239])
    by (vm_compute; reflexivity).
  split; [exact H |]. apply (hexToBytes_shape spacedHex _ H).
Defined.

(** ** The beacon response *)

Lemma stringCheck_iff (v : jsvalue) :
  negb (truthy v) || negb (isStringType v) = false
  <-> exists s, v = JString s /\ s <> [].
Proof.
  split.
  - destruct v as [| | b | n | s | items | props]; cbn; intros H;
      try (destruct b; discriminate H); try discriminate H.
    + destruct (bool_decide _); discriminate H.
    + exists s. split; [reflexivity |].
      rewrite orb_false_r in H. apply negb_false_iff, negb_true_iff in H.
      apply bool_decide_eq_false in H. exact H.
  - intros (s & -> & Hs). cbn. rewrite orb_false_r.
    apply negb_false_iff, negb_true_iff, bool_decide_eq_false, Hs.
Qed.

Lemma objectCheck_iff (v : jsvalue) :
  negb (truthy v) || negb (isObjectType v) = false
  <-> (exists items, v = JArray items) \/ (exists props, v = JObject props).
Proof.
  split.
  - destruct v as [| | b | n | s | items | props]; cbn; intros H;
      try discriminate H; try (rewrite orb_true_r in H; discriminate H).
    + left. eexists. reflexivity.
    + right. eexists. reflexivity.
  - intros [[items ->] | [props ->]]; reflexivity.
Qed.

Lemma hexOnly_iff (s : list Z) :
  hexOnly s = true <-> s <> [] /\ Forall (fun c => isHexDigit c = true) s.
Proof.
  unfold hexOnly. rewrite andb_true_iff, negb_true_iff, bool_decide_eq_false.
  rewrite forallb_forall, Forall_forall.
  split; intros [H1 H2]; (split; [exact H1 |]); intros c Hc; apply H2.
  - apply list_elem_of_In, Hc.
  - apply list_elem_of_In, Hc.
Qed.

(** A property read that gives a value was made on an object. *)
Lemma getProp_defined (v : jsvalue) (key : list Z) :
  getProp v key <> JUndefined -> exists props, v = JObject props.
Proof.
  destruct v; cbn; intros H; try (contradiction H; reflexivity).
  eexists. reflexivity.
Qed.

Lemma validateBeaconResponse_valid (data : jsvalue) :
  validateBeaconResponse data = None ->
  exists value time,
    getProp (getProp data (codeUnits "pulse")) (codeUnits "outputValue")
      = JString value
    /\ getProp (getProp data (codeUnits "pulse")) (codeUnits "timeStamp")
       = JString time
    /\ time <> []
    /\ Forall (fun c => isHexDigit c = true) value
    /\ (64 <= length value)%nat.
Proof.
  unfold validateBeaconResponse. cbv zeta.
  set (pulse := getProp data (codeUnits "pulse")).
  set (ov := getProp pulse (codeUnits "outputValue")).
  set (ts := getProp pulse (codeUnits "timeStamp")).
  destruct (negb (truthy data) || negb (isObjectType data)); [discriminate |].
  destruct (negb (truthy pulse) || negb (isObjectType pulse)); [discriminate |].
  destruct (negb (truthy ov) || negb (isStringType ov)) eqn:Eov; [discriminate |].
  destruct (negb (truthy ts) || negb (isStringType ts)) eqn:Ets; [discriminate |].
  apply stringCheck_iff in Eov as (value & Hov & _).
  apply stringCheck_iff in Ets as (time & Hts & Htime).
  rewrite Hov. cbn [textOf].
  destruct (hexOnly value) eqn:Ehex; [| discriminate]. cbn [negb].
  destruct (Z.ltb_spec (Z.of_nat (length value)) 64); [discriminate |].
  intros _. exists value, time.
  apply hexOnly_iff in Ehex as [_ Hhex].
  repeat split; try assumption. lia.
Qed.

(** X11: [validateBeaconResponse] returns without throwing exactly when
    [data.pulse.outputValue] is a string of at least 64 characters, all of
    [0-9A-Fa-f], and [data.pulse.timeStamp] is a string that is not empty
    (with [data] and [data.pulse] objects).  Nothing else of the response
    is looked at. *)
Theorem validateBeaconResponse_accepts (data : jsvalue) :
  validateBeaconResponse data = None
  <-> exists value time,
        getProp (getProp data (codeUnits "pulse")) (codeUnits "outputValue")
          = JString value
        /\ getProp (getProp data (codeUnits "pulse")) (codeUnits "timeStamp")
           = JString time
        /\ time <> []
        /\ Forall (fun c => isHexDigit c = true) value
        /\ (64 <= length value)%nat.
Proof.
  split; [apply validateBeaconResponse_valid |].
  unfold validateBeaconResponse. cbv zeta.
  set (pulse := getProp data (codeUnits "pulse")).
  set (ov := getProp pulse (codeUnits "outputValue")).
  set (ts := getProp pulse (codeUnits "timeStamp")).
  intros (value & time & Hov & Hts & Htime & Hhex & Hlen).
  fold pulse in Hov, Hts. fold ov in Hov. fold ts in Hts.
  destruct (getProp_defined pulse (codeUnits "outputValue")) as [pprops Hp].
  { fold ov. rewrite Hov. discriminate. }
  destruct (getProp_defined data (codeUnits "pulse")) as [dprops Hd].
  { fold pulse. rewrite Hp. discriminate. }
  rewrite Hd, Hp. cbn [truthy isObjectType negb orb].
  assert (Hne : value <> []) by (intros ->; cbn in Hlen; lia).
  rewrite (proj2 (stringCheck_iff ov)) by (exists value; split; assumption).
  rewrite (proj2 (stringCheck_iff ts)) by (exists time; split; assumption).
  rewrite Hov. cbn [textOf].
  rewrite (proj2 (hexOnly_iff value)) by (split; assumption). cbn [negb].
  destruct (Z.ltb_spec (Z.of_nat (length value)) 64); [lia | reflexivity].
Qed.

Lemma validateBeaconResponse_accepts_witness :
  validateBeaconResponse (beaconWith (replicate 64 48) (codeUnits "t")) = None.
Proof.
  apply (proj2 (validateBeaconResponse_accepts
                  (beaconWith (replicate 64 48) (codeUnits "t")))).
  exists (replicate 64 48), (codeUnits "t").
  split; [reflexivity |]. split; [reflexivity |]. split; [discriminate |].
  split; [| cbn; lia].
  apply Forall_replicate. reflexivity.
Defined.

Lemma hex_not_whitespace (s : list Z) :
  Forall (fun c => isHexDigit c = true) s -> removeWhitespace s = s.
Proof.
  unfold removeWhitespace. induction 1 as [| c s Hc _ IH]; cbn [List.filter].
  - reflexivity.
  - destruct (hexDigit_plain c Hc) as (-> & _). cbn [negb]. f_equal. exact IH.
Qed.

Lemma spec_hexBytes_length (s : list Z) :
  Nat.Even (length s) -> length s = (2 * length (spec_hexBytes s))%nat.
Proof.
  induction s as [| c | c1 c2 s IH] using pairs_ind; intros Heven.
  - reflexivity.
  - destruct Heven as [k Hk]. cbn in Hk. lia.
  - assert (Heven' : Nat.Even (length s)).
    { destruct Heven as [k Hk]. cbn [length] in Hk. exists (k - 1)%nat. lia. }
    cbn [spec_hexBytes length]. rewrite (IH Heven') at 1. lia.
Qed.

(** What [hexToBytes] does on text of hex digits only. *)
Lemma hexToBytes_hexOnly (value : list Z) :
  Forall (fun c => isHexDigit c = true) value ->
  hexToBytes value
  = if Nat.odd (length value) then Err OddLengthHex else Ok (spec_hexBytes value).
Proof.
  intros Hhex.
  destruct (Nat.odd (length value)) eqn:E.
  - apply hexToBytes_odd. rewrite hex_not_whitespace by exact Hhex.
    apply Nat.odd_spec, E.
  - rewrite hexToBytes_wellFormed; rewrite hex_not_whitespace by exact Hhex.
    + reflexivity.
    + split; [| exact Hhex]. apply Nat.even_spec.
      rewrite <- Nat.negb_odd, E. reflexivity.
Qed.

(** X12: the validation of the response does not settle whether the
    generation succeeds.  For a response that [validateBeaconResponse]
    accepts, [hexToBytes] of its [outputValue] fails (with the odd-length
    error) exactly when the value has an odd number of characters;
    otherwise it gives the bytes that the digits spell, 32 or more. *)
Theorem validated_output_decodes (data : jsvalue) (value : list Z) :
  validateBeaconResponse data = None ->
  getProp (getProp data (codeUnits "pulse")) (codeUnits "outputValue") = JString value ->
  hexToBytes value
  = (if Nat.odd (length value) then Err OddLengthHex else Ok (spec_hexBytes value))
  /\ (Nat.odd (length value) = false ->
      (32 <= length (spec_hexBytes value))%nat
      /\ length value = (2 * length (spec_hexBytes value))%nat).
Proof.
  intros Hvalid Hov.
  destruct (validateBeaconResponse_valid data Hvalid)
    as (value' & time & Hov' & _ & _ & Hhex & Hlen).
  rewrite Hov in Hov'. injection Hov' as <-.
  split; [apply hexToBytes_hexOnly, Hhex |].
  intros Heven.
  assert (He : Nat.Even (length value))
    by (apply Nat.even_spec; rewrite <- Nat.negb_odd, Heven; reflexivity).
  pose proof (spec_hexBytes_length value He). lia.
Qed.

Lemma validated_output_decodes_witness :
  validateBeaconResponse (beaconWith (replicate 64 48) (codeUnits "t")) = None
  /\ getProp (getProp (beaconWith (replicate 64 48) (codeUnits "t")) (codeUnits "pulse"))
       (codeUnits "outputValue") = JString (replicate 64 48)
  /\ hexToBytes (replicate 64 48)
     = (if Nat.odd (length (replicate 64 48 : list Z))
        then Err OddLengthHex else Ok (spec_hexBytes (replicate 64 48))).
Proof.
  assert (H1 : validateBeaconResponse (beaconWith (replicate 64 48) (codeUnits "t")) = None)
    by (vm_compute; reflexivity).
  assert (H2 : getProp (getProp (beaconWith (replicate 64 48) (codeUnits "t"))
                          (codeUnits "pulse")) (codeUnits "outputValue")
               = JString (replicate 64 48))
    by (vm_compute; reflexivity).
  split; [exact H1 |]. split; [exact H2 |].
  apply (validated_output_decodes _ _ H1 H2).
Defined.

(** ** fetchLatestBeacon *)

Lemma fetchAttempt_fulfilled (fetched : settled Response) (data : jsvalue) :
  fetchAttempt fetched = Fulfilled data
  <-> exists response,
        fetched = Fulfilled response /\ ok response = true
        /\ json response = Fulfilled data
        /\ validateBeaconResponse data = None.
Proof.
  unfold fetchAttempt. split.
  - destruct fetched as [response | t]; [| discriminate].
    destruct (ok response) eqn:Eok; cbn [negb]; [| discriminate].
    destruct (json response) as [d | t] eqn:Ej; [| discriminate].
    destruct (validateBeaconResponse d) eqn:Ev; [discriminate |].
    intros [= <-]. exists response. repeat split; assumption.
  - intros (response & -> & Eok & Ej & Ev). rewrite Eok, Ej, Ev. reflexivity.
Qed.

Lemma fetchLatestBeacon_fulfilled (fetched : settled Response) (data : jsvalue) :
  fetchLatestBeacon fetched = Fulfilled data <-> fetchAttempt fetched = Fulfilled data.
Proof.
  unfold fetchLatestBeacon.
  destruct (fetchAttempt fetched) as [d | [e |]].
  - reflexivity.
  - destruct (bool_decide _); [| destruct (includes _ _)]; split; discriminate.
  - split; discriminate.
Qed.

Lemma fetchLatestBeacon_rejected (fetched : settled Response) (t : Thrown) :
  fetchLatestBeacon fetched = Rejected t -> serviceFailure t.
Proof.
  unfold fetchLatestBeacon.
  destruct (fetchAttempt fetched) as [d | [e |]]; [discriminate | |].
  - destruct (bool_decide _); [| destruct (includes _ _)]; intros [= <-]; constructor.
  - intros [= <-]. constructor.
Qed.

(** X13: [fetchLatestBeacon] resolves only with the body of a response
    that was [ok], parsed, and accepted by [validateBeaconResponse], and
    it resolves with that body unchanged.  It rejects only with an error
    made by [createError]: one of the two network messages, the unknown-
    error message, or a message that starts with ["API Error: "]; the
    error type is [network] or [api], never [generation], and no error of
    [fetch], of the parser or of the validation leaves it as it was
    thrown. *)
Theorem fetchLatestBeacon_outcomes (fetched : settled Response) :
  match fetchLatestBeacon fetched with
  | Fulfilled data =>
      exists response,
        fetched = Fulfilled response /\ ok response = true
        /\ json response = Fulfilled data
        /\ validateBeaconResponse data = None
  | Rejected t =>
      serviceFailure t
      /\ exists message type,
           t = ThrownError (createServiceError message type)
           /\ type <> GenerationType
  end.
Proof.
  destruct (fetchLatestBeacon fetched) as [data | t] eqn:E.
  - apply fetchAttempt_fulfilled, fetchLatestBeacon_fulfilled, E.
  - pose proof (fetchLatestBeacon_rejected fetched t E) as Hf.
    split; [exact Hf |].
    destruct Hf; eexists _, _; (split; [reflexivity | discriminate]).
Qed.

(** The six errors of the validation. *)
Lemma validateBeaconResponse_error (data : jsvalue) (e : JsError) :
  validateBeaconResponse data = Some e ->
  errName e = codeUnits "Error" /\ errType e = Some ApiType
  /\ includes (errMessage e) (codeUnits "Failed to fetch") = false.
Proof.
  unfold validateBeaconResponse. cbv zeta.
  repeat match goal with
         | |- context [if ?b then _ else _] => destruct b
         end;
    intros [= <-]; repeat split; vm_compute; reflexivity.
Qed.

(** X14: a body that the validation refuses is reported with the prefix
    twice: [fetchLatestBeacon] rejects with ["API Error: "] followed by the
    message of the validation, and [generateNumbers] shows ["API Error: "]
    followed by that. *)
Theorem invalid_body_shown
    (hmacSha256 : list Z -> list Z -> list Z) (textEncode : list Z -> list Z)
    (response : Response) (data : jsvalue) (e : JsError) :
  ok response = true -> json response = Fulfilled data ->
  validateBeaconResponse data = Some e ->
  fetchLatestBeacon (Fulfilled response)
  = Rejected (ThrownError (createServiceError
                (codeUnits "API Error: " ++ errMessage e) ApiType))
  /\ generateNumbers hmacSha256 textEncode (Fulfilled response)
     = ShowsError (codeUnits "API Error: API Error: " ++ errMessage e).
Proof.
  intros Hok Hjson Hval.
  destruct (validateBeaconResponse_error data e Hval) as (Hname & _ & Hinc).
  assert (Hfetch : fetchLatestBeacon (Fulfilled response)
                   = Rejected (ThrownError (createServiceError
                       (codeUnits "API Error: " ++ errMessage e) ApiType))).
  { unfold fetchLatestBeacon, fetchAttempt. rewrite Hok, Hjson, Hval. cbn [negb].
    rewrite Hname, Hinc. reflexivity. }
  split; [exact Hfetch |].
  unfold generateNumbers. rewrite Hfetch. reflexivity.
Qed.

Lemma invalid_body_shown_witness :
  ok (okResponse (beaconWith (codeUnits "xyz") (codeUnits "t"))) = true
  /\ generateNumbers keyAsHash sameBytes
       (Fulfilled (okResponse (beaconWith (codeUnits "xyz") (codeUnits "t"))))
     = ShowsError (codeUnits "API Error: API Error: Invalid hex format in outputValue").
Proof.
  split; [reflexivity |].
  apply (proj2 (invalid_body_shown keyAsHash sameBytes
                  (okResponse (beaconWith (codeUnits "xyz") (codeUnits "t")))
                  (beaconWith (codeUnits "xyz") (codeUnits "t"))
                  (createServiceError (codeUnits "Invalid hex format in outputValue") ApiType)
                  eq_refl eq_refl eq_refl)).
Defined.

(** ** generateNumbers *)

Section AppFacts.
Variable hmacSha256 : list Z -> list Z -> list Z.
Variable textEncode : list Z -> list Z.

(** After a fetch that resolved. *)
Lemma generateNumbers_fetched (fetched : settled Response) (data : jsvalue) :
  fetchLatestBeacon fetched = Fulfilled data ->
  exists value time,
    getProp (getProp data (codeUnits "pulse")) (codeUnits "outputValue") = JString value
    /\ getProp (getProp data (codeUnits "pulse")) (codeUnits "timeStamp") = JString time
    /\ ((Nat.odd (length value) = true
         /\ generateNumbers hmacSha256 textEncode fetched
            = ShowsError (codeUnits "Invalid hex string: odd length"))
        \/ (Nat.odd (length value) = false
            /\ exists n649 nMax,
                 generateNumbers hmacSha256 textEncode fetched
                 = ShowsResults {| numbers649 := n649; numbersMax := nMax;
                                   timestamp := time; outputValue := value |}
                 /\ outcome (generate649Numbers hmacSha256 textEncode value) = Ok n649
                 /\ outcome (generateLottoMaxNumbers hmacSha256 textEncode value) = Ok nMax
                 /\ validateNumbers (ofInt <$> n649) 6 1 49 = true
                 /\ validateNumbers (ofInt <$> nMax) 7 1 50 = true)).
Proof.
  intros Hfetch.
  pose proof Hfetch as Hf.
  apply fetchLatestBeacon_fulfilled, fetchAttempt_fulfilled in Hf
    as (response & _ & _ & _ & Hvalid).
  destruct (validateBeaconResponse_valid data Hvalid)
    as (value & time & Hov & Hts & _ & Hhex & _).
  exists value, time. split; [exact Hov |]. split; [exact Hts |].
  unfold generateNumbers. rewrite Hfetch. cbv zeta. rewrite Hov, Hts.
  pose proof (hexToBytes_hexOnly value Hhex) as Hdec.
  destruct (Nat.odd (length value)) eqn:Eodd.
  - left. split; [reflexivity |].
    destruct (entry_points_err hmacSha256 textEncode value _ Hdec) as [-> _].
    reflexivity.
  - right. split; [reflexivity |].
    destruct (entry_points_ok hmacSha256 textEncode value _ Hdec)
      as (r6 & r7 & H6 & V6 & _ & H7 & V7 & _).
    exists r6, r7. rewrite H6, H7, V6, V7. cbn [negb].
    repeat split; reflexivity.
Qed.

(** X15: after a fetch that resolved, [generateNumbers] shows the two
    number sets, both accepted by the validator, with the time stamp and
    the output value of the response, when the output value has an even
    number of characters; when it has an odd number, it shows the message
    of [hexToBytes] as it is, ["Invalid hex string: odd length"]. *)
Theorem generateNumbers_after_fetch
    (response : Response) (data : jsvalue) (value time : list Z) :
  ok response = true -> json response = Fulfilled data ->
  validateBeaconResponse data = None ->
  getProp (getProp data (codeUnits "pulse")) (codeUnits "outputValue") = JString value ->
  getProp (getProp data (codeUnits "pulse")) (codeUnits "timeStamp") = JString time ->
  if Nat.odd (length value)
  then generateNumbers hmacSha256 textEncode (Fulfilled response)
       = ShowsError (codeUnits "Invalid hex string: odd length")
  else exists n649 nMax,
         generateNumbers hmacSha256 textEncode (Fulfilled response)
         = ShowsResults {| numbers649 := n649; numbersMax := nMax;
                           timestamp := time; outputValue := value |}
         /\ outcome (generate649Numbers hmacSha256 textEncode value) = Ok n649
         /\ outcome (generateLottoMaxNumbers hmacSha256 textEncode value) = Ok nMax
         /\ validateNumbers (ofInt <$> n649) 6 1 49 = true
         /\ validateNumbers (ofInt <$> nMax) 7 1 50 = true.
Proof.
  intros Hok Hjson Hvalid Hov Hts.
  assert (Hfetch : fetchLatestBeacon (Fulfilled response) = Fulfilled data).
  { apply fetchLatestBeacon_fulfilled, fetchAttempt_fulfilled.
    exists response. repeat split; assumption. }
  destruct (generateNumbers_fetched _ _ Hfetch)
    as (value' & time' & Hov' & Hts' & Hcases).
  rewrite Hov in Hov'. injection Hov' as <-.
  rewrite Hts in Hts'. injection Hts' as <-.
  destruct Hcases as [[Hodd Hshow] | [Heven Hshow]].
  - rewrite Hodd. exact Hshow.
  - rewrite Heven. exact Hshow.
Qed.

(** X16: whatever [fetch] does, [generateNumbers] ends with the results or
    with one of five texts: the two network texts, the unknown-error text,
    a text that starts with ["API Error: API Error: "], or the odd-length
    message.  The texts ["Generation Error: ..."], ["Generated ... failed
    validation"], ["Invalid hex character in beacon value"] and
    ["An unexpected error occurred"] are never shown, and no read of the
    response fails. *)
Theorem generateNumbers_screens (fetched : settled Response) :
  match generateNumbers hmacSha256 textEncode fetched with
  | ShowsResults n =>
      validateNumbers (ofInt <$> numbers649 n) 6 1 49 = true
      /\ validateNumbers (ofInt <$> numbersMax n) 7 1 50 = true
      /\ Forall (fun c => isHexDigit c = true) (outputValue n)
      /\ (64 <= length (outputValue n))%nat
  | ShowsError text =>
      text = timeoutText \/ text = unreachableText \/ text = unknownText
      \/ (exists message, text = codeUnits "API Error: API Error: " ++ message)
      \/ text = codeUnits "Invalid hex string: odd length"
  | OutsideModel => False
  end.
Proof.
  destruct (fetchLatestBeacon fetched) as [data | t] eqn:Hfetch.
  - destruct (generateNumbers_fetched _ _ Hfetch)
      as (value & time & Hov & _ & Hcases).
    pose proof Hfetch as Hf.
    apply fetchLatestBeacon_fulfilled, fetchAttempt_fulfilled in Hf
      as (response & _ & _ & _ & Hvalid).
    destruct (validateBeaconResponse_valid data Hvalid)
      as (value' & _ & Hov' & _ & _ & Hhex & Hlen).
    rewrite Hov in Hov'. injection Hov' as <-.
    destruct Hcases as [[_ ->] | [_ (n649 & nMax & -> & _ & _ & V6 & V7)]].
    + right. right. right. right. reflexivity.
    + cbn [numbers649 numbersMax outputValue]. repeat split; assumption.
  - unfold generateNumbers. rewrite Hfetch.
    destruct (fetchLatestBeacon_rejected fetched t Hfetch); cbn.
    + left. reflexivity.
    + right. left. reflexivity.
    + right. right. right. left. exists message. reflexivity.
    + right. right. left. reflexivity.
Qed.
End AppFacts.

Lemma generateNumbers_after_fetch_witness :
  validateBeaconResponse (beaconWith (replicate 65 48) (codeUnits "t")) = None
  /\ generateNumbers keyAsHash sameBytes
       (Fulfilled (okResponse (beaconWith (replicate 65 48) (codeUnits "t"))))
     = ShowsError (codeUnits "Invalid hex string: odd length").
Proof.
  assert (Hv : validateBeaconResponse (beaconWith (replicate 65 48) (codeUnits "t")) = None)
    by (vm_compute; reflexivity).
  split; [exact Hv |].
  apply (generateNumbers_after_fetch keyAsHash sameBytes
           (okResponse (beaconWith (replicate 65 48) (codeUnits "t")))
           (beaconWith (replicate 65 48) (codeUnits "t"))
           (replicate 65 48) (codeUnits "t") eq_refl eq_refl Hv eq_refl eq_refl).
Defined.
